(** * fityk: lexer and definition manager

    A shallow embedding of two parts of fityk:
    - [fityk/lexer.cpp]: the lexical analyser ([Lexer::read_token], the
      peek/get protocol, the expected-token error protocol), and
    - [wxgui/defmgr.cpp]: [DefinitionMgrDlg::get_commands], which turns the
      edited list of function templates into [define]/[undefine] commands.

    Conventions.
    - A C string is a [list ascii]; reading past its end yields NUL, which
      is what the terminator gives in C.  A [const char*] into the input is
      an offset ([nat]) into that list.
    - A [std::string] is a [string].
    - A C++ exception is the [Throw] outcome; it carries the state the
      object is left in. *)

From Stdlib Require Import Bool Arith Lia List ZArith.
From Stdlib Require Import Ascii String DecimalString.
Import ListNotations.

Local Open Scope string_scope.
Local Open Scope list_scope.

(* ================================================================== *)
(** * Part I.  Definitions *)
(* ================================================================== *)

(** ** The definition manager (wxgui/defmgr.cpp) *)

Module DefMgr.

(** [fityk::Tplate], with the fields [defmgr.cpp] reads.  [create] is the
    pointer to a native constructor: [true] stands for non-NULL
    ([is_coded()]).  A component refers to another template by name. *)
Record Tplate := mkTplate {
  name : string;
  fargs : list string;
  defvals : list string;
  rhs : string;
  traits : Z;
  create : bool;
  docs_fragment : option string;
  components : list (string * option string)
}.

(** [operator==] of [std::vector<std::string>]. *)
Definition vec_eqb (a b : list string) : bool :=
  if list_eq_dec string_dec a b then true else false.

Section GetCommands.

(** [Tplate::as_formula] lives in [fityk/tplate.cpp]; the dialog only
    calls it. *)
Variable as_formula : Tplate -> string.

(** The inner loop of the first pass:
    for each [j] of [modified_], stop when [i->name == j->name]. *)
Fixpoint name_found (n : string) (modified_ : list Tplate) : bool :=
  match modified_ with
  | [] => false
  | j :: rest => if String.eqb n (name j) then true else name_found n rest
  end.

(** First pass: one [undefine] per committed template whose name is not
    in the working copy.  [ss] is the vector being filled. *)
Definition undefine_removed (tpvec modified_ : list Tplate)
    (ss : list string) : list string :=
  fold_left
    (fun ss i =>
       if name_found (name i) modified_ then ss
       else ss ++ [("undefine " ++ name i)%string])
    tpvec ss.

(** The inner loop of the second pass; it stops at the first committed
    template with the name of [i].  Returns [need_define] and [ss]. *)
Fixpoint match_committed (i : Tplate) (tpvec : list Tplate)
    (ss : list string) : bool * list string :=
  match tpvec with
  | [] => (true, ss)
  | j :: rest =>
      if String.eqb (name i) (name j) then
        if vec_eqb (fargs i) (fargs j) && vec_eqb (defvals i) (defvals j)
           && String.eqb (rhs i) (rhs j)
        then (false, ss)
        else (true, ss ++ [("undefine " ++ name i)%string])
      else match_committed i rest ss
  end.

(** Second pass, over the working copy. *)
Definition define_changed (tpvec modified_ : list Tplate)
    (ss : list string) : list string :=
  fold_left
    (fun ss i =>
       let '(need_define, ss1) := match_committed i tpvec ss in
       if need_define then ss1 ++ [("define " ++ as_formula i)%string] else ss1)
    modified_ ss.

(** [DefinitionMgrDlg::get_commands]; [tpvec] is
    [ftk->get_tpm()->tpvec()], the committed templates. *)
Definition get_commands (tpvec modified_ : list Tplate) : list string :=
  define_changed tpvec modified_ (undefine_removed tpvec modified_ []).

Definition define_cmd (t : Tplate) : string :=
  ("define " ++ as_formula t)%string.

End GetCommands.

(** Modelled from the spec: [Tplate::as_formula] (fityk/tplate.cpp is not
    among the sources).  The spec describes it as the textual definition
    [name(args)=rhs], with [arg=default] for an argument that has a
    default value, as in
    [Gaussian(height, center, hwhm=1) = height*exp(...)]. *)
Fixpoint formula_args (fargs defvals : list string) : list string :=
  match fargs with
  | [] => []
  | a :: fargs' =>
      let d := hd EmptyString defvals in
      (if String.eqb d EmptyString then a else (a ++ "=" ++ d)%string)
        :: formula_args fargs' (tl defvals)
  end.

Definition as_formula (tp : Tplate) : string :=
  (name tp ++ "(" ++ String.concat ", " (formula_args (fargs tp) (defvals tp))
           ++ ") = " ++ rhs tp)%string.

(** What a command is, read off its text. *)
Definition is_undefine (cmd : string) : bool := String.prefix "undefine " cmd.
Definition is_define (cmd : string) : bool := String.prefix "define " cmd.

Definition undefine_cmd (t : Tplate) : string := ("undefine " ++ name t)%string.

(** The three fields the second pass compares. *)
Definition same_definition (a b : Tplate) : Prop :=
  fargs a = fargs b /\ defvals a = defvals b /\ rhs a = rhs b.

(** Agreement on the name and on those three fields. *)
Definition same_text (a b : Tplate) : Prop :=
  name a = name b /\ same_definition a b.

(** No [define] stands before an [undefine] in [out]. *)
Definition undefines_before_defines (out : list string) : Prop :=
  forall i j d u,
    nth_error out i = Some d -> is_define d = true ->
    nth_error out j = Some u -> is_undefine u = true ->
    j < i.

(** The commands one working-copy template can give rise to: none, its
    [define], or its [undefine] and then its [define]. *)
Definition template_cmds (define_cmd : Tplate -> string) (t : Tplate)
    (cs : list string) : Prop :=
  cs = [] \/ cs = [define_cmd t] \/ cs = [undefine_cmd t; define_cmd t].

(** Sample templates. *)
Definition tp (n : string) (args : list string) (body : string) : Tplate :=
  mkTplate n args (map (fun _ => EmptyString) args) body 0 false None [].

End DefMgr.


(** ** The lexer (fityk/lexer.cpp) *)

Module Lex.

(** *** Characters and C strings *)

Definition NUL : ascii := Ascii.zero.

(** [*ptr] for a pointer at offset [ptr] of the C string [input]. *)
Definition char_at (input : list ascii) (ptr : nat) : ascii :=
  nth ptr input NUL.

(** <ctype.h> in the C locale. *)
Definition in_range (lo hi : nat) (c : ascii) : bool :=
  let n := nat_of_ascii c in ((lo <=? n) && (n <=? hi))%nat.

Definition isspace (c : ascii) : bool :=
  Ascii.eqb c " " || in_range 9 13 c.
Definition isdigit (c : ascii) : bool := in_range 48 57 c.
Definition isupper (c : ascii) : bool := in_range 65 90 c.
Definition islower (c : ascii) : bool := in_range 97 122 c.
Definition isalpha (c : ascii) : bool := isupper c || islower c.
Definition isalnum (c : ascii) : bool := isalpha c || isdigit c.

(** The number of leading characters of [s] that satisfy [p]. *)
Fixpoint span (p : ascii -> bool) (s : list ascii) : nat :=
  match s with
  | c :: s' => if p c then S (span p s') else 0
  | [] => 0
  end.

(** [while (p( *ptr)) ++ptr;] for a [p] that is false on NUL: the pointer
    where the loop stops. *)
Definition scan_while (p : ascii -> bool) (input : list ascii) (ptr : nat)
    : nat :=
  ptr + span p (skipn ptr input).

(** [strchr] for a character [c] other than NUL: the distance to the
    first [c], [None] (NULL) when the terminator comes first. *)
Fixpoint strchr_span (c : ascii) (s : list ascii) : option nat :=
  match s with
  | [] => None
  | a :: s' =>
      if Ascii.eqb a c then Some 0
      else if Ascii.eqb a NUL then None
      else option_map S (strchr_span c s')
  end.

Definition strchr (input : list ascii) (ptr : nat) (c : ascii) : option nat :=
  option_map (Nat.add ptr) (strchr_span c (skipn ptr input)).

(** Conversion to a 32-bit [int], wrapping around. *)
Definition to_int (z : Z) : Z := ((z + 2 ^ 31) mod 2 ^ 32 - 2 ^ 31)%Z.

(** [S(n)] of common.h for an [int]: its decimal text. *)
Definition S_int (n : Z) : string := NilZero.string_of_int (Z.to_int n).

(** *** Tokens *)

Inductive TokenType : Set :=
  | kTokenLname | kTokenCname | kTokenUletter | kTokenString
  | kTokenVarname | kTokenFuncname | kTokenNumber | kTokenDataset
  | kTokenWord | kTokenExpr | kTokenEVar | kTokenRest
  | kTokenLE | kTokenGE | kTokenNE | kTokenEQ | kTokenAppend
  | kTokenDots | kTokenPlusMinus | kTokenAddAssign | kTokenSubAssign
  | kTokenOpen | kTokenClose | kTokenLSquare | kTokenRSquare
  | kTokenLCurly | kTokenRCurly | kTokenPlus | kTokenMinus | kTokenMult
  | kTokenDiv | kTokenPower | kTokenLT | kTokenGT | kTokenAssign
  | kTokenComma | kTokenSemicolon | kTokenDot | kTokenColon
  | kTokenTilde | kTokenQMark | kTokenBang
  | kTokenNop.

Definition TokenType_eq_dec (a b : TokenType) : {a = b} + {a <> b}.
Proof. decide equality. Defined.

Definition TokenType_eqb (a b : TokenType) : bool :=
  if TokenType_eq_dec a b then true else false.

Definition tokentype2str (tt : TokenType) : string :=
  match tt with
  | kTokenLname => "lower_case_name"
  | kTokenCname => "CamelCaseName"
  | kTokenUletter => "Upper-case-letter"
  | kTokenString => "'quoted-string'"
  | kTokenVarname => "$variable_name"
  | kTokenFuncname => "%func_name"
  | kTokenNumber => "number"
  | kTokenDataset => "@dataset"
  | kTokenWord => "word"
  | kTokenExpr => "expr"
  | kTokenEVar => "var-expr"
  | kTokenRest => "rest-of-line"
  | kTokenLE => "<="
  | kTokenGE => ">="
  | kTokenNE => "!="
  | kTokenEQ => "=="
  | kTokenAppend => ">>"
  | kTokenDots => ".."
  | kTokenPlusMinus => "+-"
  | kTokenAddAssign => "+="
  | kTokenSubAssign => "-="
  | kTokenOpen => "("
  | kTokenClose => ")"
  | kTokenLSquare => "["
  | kTokenRSquare => "]"
  | kTokenLCurly => "{"
  | kTokenRCurly => "}"
  | kTokenPlus => "+"
  | kTokenMinus => "-"
  | kTokenMult => "*"
  | kTokenDiv => "/"
  | kTokenPower => "^"
  | kTokenLT => "<"
  | kTokenGT => ">"
  | kTokenAssign => "="
  | kTokenComma => ","
  | kTokenSemicolon => ";"
  | kTokenDot => "."
  | kTokenColon => ":"
  | kTokenTilde => "~"
  | kTokenQMark => "?"
  | kTokenBang => "!"
  | kTokenNop => "Nop"
  end.

(** Whether the text [needle] occurs in [hay]. *)
Fixpoint contains (needle hay : string) : bool :=
  String.prefix needle hay
  || match hay with
     | EmptyString => false
     | String _ hay' => contains needle hay'
     end.

(** The two-character operators with the single-character token each
    falls back to: first and second character, kind, kind of the
    fallback. *)
Definition two_char_operators
    : list (ascii * ascii * TokenType * TokenType) :=
  [ ("<", "=", kTokenLE, kTokenLT);
    (">", "=", kTokenGE, kTokenGT);
    ("!", "=", kTokenNE, kTokenBang);
    ("=", "=", kTokenEQ, kTokenAssign);
    (">", ">", kTokenAppend, kTokenGT);
    ("+", "=", kTokenAddAssign, kTokenPlus);
    ("-", "=", kTokenSubAssign, kTokenMinus);
    ("+", "-", kTokenPlusMinus, kTokenPlus);
    (".", ".", kTokenDots, kTokenDot) ]%char.

(** Whether [c], standing right after [c1], makes [read_token] read more
    than the single character [c1]. *)
Definition extends (c1 c : ascii) : bool :=
  if Ascii.eqb c1 "<" then Ascii.eqb c "=" || Ascii.eqb c ">"
  else if Ascii.eqb c1 ">" then Ascii.eqb c "=" || Ascii.eqb c ">"
  else if Ascii.eqb c1 "=" then Ascii.eqb c "="
  else if Ascii.eqb c1 "+" then Ascii.eqb c "-" || Ascii.eqb c "="
  else if Ascii.eqb c1 "-" then Ascii.eqb c "="
  else if Ascii.eqb c1 "!" then Ascii.eqb c "="
  else if Ascii.eqb c1 "." then isdigit c || Ascii.eqb c "."
  else false.

(** [Lexer::kAll] and [Lexer::kNew]. *)
Definition kAll : Z := (-1)%Z.
Definition kNew : Z := (-2)%Z.

Section WithLibc.

Local Notation "c =@ d" := (Ascii.eqb c d%char) (at level 70).

(** The type of [double]. *)
Variable double : Type.

(** [strtod] and [strtol] (base 10) of the C library, applied to the C
    string that starts at the pointer: the value, and how many characters
    were consumed ([endptr - nptr]). *)
Variable strtod : list ascii -> double * nat.
Variable strtol : list ascii -> Z * nat.

(** The union [Token::value]; [ValueUnset] is an indeterminate value. *)
Inductive TokenValue : Type :=
  | ValueI (i : Z)
  | ValueD (d : double)
  | ValueUnset.

(** [struct Token]: [str] points into the input. *)
Record Token : Type := mkToken {
  str : nat;
  type : TokenType;
  length : nat;
  value : TokenValue
}.

(** Modelled from the spec: [Token::as_string] (declared in lexer.h, which
    is not among the sources): the raw text of the token, the [length]
    characters from [str]. *)
Definition as_string (input : list ascii) (token : Token) : string :=
  string_of_list_ascii (firstn (length token) (skipn (str token) input)).

(** [string(p, n)]: the [n] characters at offset [p]. *)
Definition string_at (input : list ascii) (p n : nat) : string :=
  string_of_list_ascii (firstn n (skipn p input)).

(** [Lexer::get_string].  The lengths are subtracted in [nat]; tokens of
    these three kinds that the lexer produces are long enough (see
    [read_token_delimited]). *)
Definition get_string (input : list ascii) (token : Token) : string :=
  match type token with
  | kTokenString => string_at input (str token + 1) (length token - 2)
  | kTokenVarname => string_at input (str token + 1) (length token - 1)
  | kTokenFuncname => string_at input (str token + 1) (length token - 1)
  | _ => as_string input token
  end.

(** *** The lexer object *)

(** [input_] is the whole input; [cur_] the offset of the cursor in it. *)
Record Lexer : Type := mkLexer {
  input_ : list ascii;
  cur_ : nat;
  peeked_ : bool;
  tok_ : Token
}.

(** The constructor [Lexer(const char* input)]; it leaves [tok_]
    uninitialised, so any [tok0] may be there. *)
Definition Lexer_new (input : list ascii) (tok0 : Token) : Lexer :=
  mkLexer input 0 false tok0.

(** The result of a member function: it returns, or it throws
    [SyntaxError(msg)]; either way the object is left in some state. *)
Inductive outcome (A : Type) : Type :=
  | Ret (a : A) (lx : Lexer)
  | Throw (msg : string) (lx : Lexer).
Arguments Ret {A} a lx.
Arguments Throw {A} msg lx.

Definition bind {A B : Type} (m : outcome A) (f : A -> Lexer -> outcome B)
    : outcome B :=
  match m with
  | Ret a lx => f a lx
  | Throw msg lx => Throw msg lx
  end.

Definition state_of {A : Type} (m : outcome A) : Lexer :=
  match m with
  | Ret _ lx => lx
  | Throw _ lx => lx
  end.

Definition set_peeked (b : bool) (lx : Lexer) : Lexer :=
  mkLexer (input_ lx) (cur_ lx) b (tok_ lx).

Definition set_cur (p : nat) (lx : Lexer) : Lexer :=
  mkLexer (input_ lx) p (peeked_ lx) (tok_ lx).

(** *** Lexer::read_token *)

(** The end of [read_token]: [tok_.length = ptr - tok_.str; cur_ = ptr],
    with the [type] and [value] the case has stored in [tok_]. *)
Definition finish (lx : Lexer) (start : nat) (ty : TokenType)
    (v : TokenValue) (ptr : nat) : outcome unit :=
  Ret tt (mkLexer (input_ lx) ptr (peeked_ lx)
                  (mkToken start ty (ptr - start) v)).

(** A [throw] in the middle of [read_token]: [tok_.str] has been moved,
    [tok_.type] is [ty] (set or not by the case), nothing else changed. *)
Definition raise (lx : Lexer) (start : nat) (ty : TokenType) (msg : string)
    : outcome unit :=
  Throw msg (mkLexer (input_ lx) (cur_ lx) (peeked_ lx)
                     (mkToken start ty (length (tok_ lx)) (value (tok_ lx)))).

(** The characters that continue a [$name] or [%name]. *)
Definition name_char (allow_glob : bool) (c : ascii) : bool :=
  isalnum c || (c =@ "_") || (allow_glob && (c =@ "*")).

Definition read_token (allow_glob : bool) (lx : Lexer) : outcome unit :=
  let input := input_ lx in
  let start := scan_while isspace input (cur_ lx) in
  let old := type (tok_ lx) in
  let v := value (tok_ lx) in
  let ptr := start in
  let c := char_at input ptr in
  let c1 := char_at input (ptr + 1) in
  if (c =@ NUL) || (c =@ "#") then finish lx start kTokenNop v ptr
  else if c =@ "'" then
    match strchr input (ptr + 1) "'" with
    | None => raise lx start kTokenString "unfinished string"
    | Some e => finish lx start kTokenString v (e + 1)
    end
  else if c =@ ">" then
    if c1 =@ "=" then finish lx start kTokenGE v (ptr + 2)
    else if c1 =@ ">" then finish lx start kTokenAppend v (ptr + 2)
    else finish lx start kTokenGT v (ptr + 1)
  else if c =@ "<" then
    if c1 =@ "=" then finish lx start kTokenLE v (ptr + 2)
    else if c1 =@ ">" then finish lx start kTokenNE v (ptr + 2)
    else finish lx start kTokenLT v (ptr + 1)
  else if c =@ "=" then
    if c1 =@ "=" then finish lx start kTokenEQ v (ptr + 2)
    else finish lx start kTokenAssign v (ptr + 1)
  else if c =@ "+" then
    if c1 =@ "-" then finish lx start kTokenPlusMinus v (ptr + 2)
    else if c1 =@ "=" then finish lx start kTokenAddAssign v (ptr + 2)
    else finish lx start kTokenPlus v (ptr + 1)
  else if c =@ "-" then
    if c1 =@ "=" then finish lx start kTokenSubAssign v (ptr + 2)
    else finish lx start kTokenMinus v (ptr + 1)
  else if c =@ "!" then
    if c1 =@ "=" then finish lx start kTokenNE v (ptr + 2)
    else finish lx start kTokenBang v (ptr + 1)
  else if c =@ "." then
    if isdigit c1 then
      let '(d, n) := strtod (skipn start input) in
      finish lx start kTokenNumber (ValueD d) (start + n)
    else if c1 =@ "." then
      if char_at input (ptr + 2) =@ "."
      then finish lx start kTokenDots v (ptr + 3)
      else finish lx start kTokenDots v (ptr + 2)
    else finish lx start kTokenDot v (ptr + 1)
  else if c =@ "@" then
    if c1 =@ "*" then finish lx start kTokenDataset (ValueI kAll) (ptr + 2)
    else if c1 =@ "+" then finish lx start kTokenDataset (ValueI kNew) (ptr + 2)
    else if isdigit c1 then
      let '(i, n) := strtol (skipn (ptr + 1) input) in
      finish lx start kTokenDataset (ValueI (to_int i)) (ptr + 1 + n)
    else raise lx start kTokenDataset "unexpected character after '@'"
  else if c =@ "$" then
    if negb (isalpha c1 || (c1 =@ "_") || (c1 =@ "*"))
    then raise lx start old "unexpected character after '$'"
    else finish lx start kTokenVarname v
           (scan_while (name_char allow_glob) input (ptr + 2))
  else if c =@ "%" then
    if negb (isalpha c1 || (c1 =@ "_") || (c1 =@ "*"))
    then raise lx start old "unexpected character after '%'"
    else finish lx start kTokenFuncname v
           (scan_while (name_char allow_glob) input (ptr + 2))
  else if c =@ "(" then finish lx start kTokenOpen v (ptr + 1)
  else if c =@ ")" then finish lx start kTokenClose v (ptr + 1)
  else if c =@ "[" then finish lx start kTokenLSquare v (ptr + 1)
  else if c =@ "]" then finish lx start kTokenRSquare v (ptr + 1)
  else if c =@ "{" then finish lx start kTokenLCurly v (ptr + 1)
  else if c =@ "}" then finish lx start kTokenRCurly v (ptr + 1)
  else if c =@ "*" then finish lx start kTokenMult v (ptr + 1)
  else if c =@ "/" then finish lx start kTokenDiv v (ptr + 1)
  else if c =@ "^" then finish lx start kTokenPower v (ptr + 1)
  else if c =@ "," then finish lx start kTokenComma v (ptr + 1)
  else if c =@ ";" then finish lx start kTokenSemicolon v (ptr + 1)
  else if c =@ ":" then finish lx start kTokenColon v (ptr + 1)
  else if c =@ "~" then finish lx start kTokenTilde v (ptr + 1)
  else if c =@ "?" then finish lx start kTokenQMark v (ptr + 1)
  else if isdigit c then
    let '(d, n) := strtod (skipn ptr input) in
    finish lx start kTokenNumber (ValueD d) (ptr + n)
  else if isupper c then
    if isalnum c1
    then finish lx start kTokenCname v (scan_while isalnum input (ptr + 1))
    else finish lx start kTokenUletter v (ptr + 1)
  else if isalpha c || (c =@ "_") then
    finish lx start kTokenLname v
      (scan_while (fun a => isalnum a || (a =@ "_")) input ptr)
  else raise lx start old ("unexpected character: " ++ String c EmptyString).

(** *** The token stream *)

Definition get_token (lx : Lexer) : outcome Token :=
  bind (if peeked_ lx then Ret tt lx else read_token false lx)
       (fun _ lx1 => Ret (tok_ lx1) (set_peeked false lx1)).

Definition peek_token (lx : Lexer) : outcome Token :=
  bind (if peeked_ lx then Ret tt lx else read_token false lx)
       (fun _ lx1 => Ret (tok_ lx1) (set_peeked true lx1)).

Definition go_back (token : Token) (lx : Lexer) : outcome unit :=
  Ret tt (mkLexer (input_ lx) (str token) false (tok_ lx)).

Definition get_glob_token (lx : Lexer) : outcome Token :=
  let lx0 :=
    if peeked_ lx
    then mkLexer (input_ lx) (str (tok_ lx)) false (tok_ lx)
    else lx in
  bind (read_token true lx0) (fun _ lx1 => Ret (tok_ lx1) lx1).

(** The shared shape of [get_word_token] and [get_rest_of_cmd]: after
    [get_token], move [cur_] on while [p] holds and widen the token. *)
Definition get_wide_token (p : ascii -> bool) (tt : TokenType) (lx : Lexer)
    : outcome Token :=
  bind (get_token lx) (fun t lx1 =>
    if TokenType_eqb (type t) kTokenString || TokenType_eqb (type t) kTokenNop
    then Ret t lx1
    else
      let cur := scan_while p (input_ lx1) (cur_ lx1) in
      Ret (mkToken (str t) tt (cur - str t) (value t)) (set_cur cur lx1)).

Definition get_word_token : Lexer -> outcome Token :=
  get_wide_token
    (fun c => negb (c =@ NUL) && negb (isspace c) && negb (c =@ ";")
              && negb (c =@ "#"))
    kTokenWord.

Definition get_rest_of_cmd : Lexer -> outcome Token :=
  get_wide_token
    (fun c => negb (c =@ NUL) && negb (c =@ ";") && negb (c =@ "#"))
    kTokenRest.

Definition get_rest_of_line (lx : Lexer) : outcome Token :=
  let cur1 := scan_while isspace (input_ lx) (cur_ lx) in
  let start := if peeked_ lx then str (tok_ lx) else cur1 in
  let cur2 := scan_while (fun c => negb (c =@ NUL)) (input_ lx) cur1 in
  Ret (mkToken start kTokenRest (cur2 - start) ValueUnset)
      (mkLexer (input_ lx) cur2 false (tok_ lx)).

(** *** The expected-token protocol *)

(** [cur_ - input_] is stored in an [int]. *)
Definition throw_syntax_error {A : Type} (msg : string) (lx : Lexer)
    : outcome A :=
  let pos := to_int (Z.of_nat (cur_ lx)) in
  let s := S_int pos in
  let s :=
    if (10 <=? pos)%Z
    then (s ++ ", near `" ++ string_at (input_ lx) (cur_ lx - 10) 10 ++ "'")%string
    else s in
  Throw ("at " ++ s ++ ": " ++ msg)%string lx.

(** [p == kTokenNop ? msg : msg + rest]. *)
Definition unless_nop (p : TokenType) (msg rest : string) : string :=
  if TokenType_eqb p kTokenNop then msg else (msg ++ rest)%string.

(** [get_expected_token(const string& raw)]. *)
Definition get_expected_token_raw (raw : string) (lx : Lexer)
    : outcome Token :=
  bind (peek_token lx) (fun t lx1 =>
  let p := type t in
  bind (peek_token lx1) (fun t' lx2 =>
  let s := as_string (input_ lx2) t' in
  if negb (String.eqb s raw) then
    let msg := ("expected `" ++ raw ++ "'")%string in
    throw_syntax_error (unless_nop p msg (" instead of `" ++ s ++ "'")) lx2
  else get_token lx2)).

(** [get_expected_token(TokenType tt)]. *)
Definition get_expected_token (tt : TokenType) (lx : Lexer) : outcome Token :=
  bind (peek_token lx) (fun t lx1 =>
  let p := type t in
  if negb (TokenType_eqb p tt) then
    let msg := ("expected " ++ tokentype2str tt)%string in
    throw_syntax_error
      (unless_nop p msg (" instead of " ++ tokentype2str p)) lx1
  else get_token lx1).

(** [get_expected_token(TokenType tt1, TokenType tt2)]. *)
Definition get_expected_token_tt2 (tt1 tt2 : TokenType) (lx : Lexer)
    : outcome Token :=
  bind (peek_token lx) (fun t lx1 =>
  let p := type t in
  if negb (TokenType_eqb p tt1) && negb (TokenType_eqb p tt2) then
    let msg :=
      ("expected " ++ tokentype2str tt1 ++ " or " ++ tokentype2str tt2)%string
    in
    throw_syntax_error
      (unless_nop p msg (" instead of " ++ tokentype2str p)) lx1
  else get_token lx1).

(** [get_expected_token(TokenType tt, const string& raw)]. *)
Definition get_expected_token_tt_raw (tt : TokenType) (raw : string)
    (lx : Lexer) : outcome Token :=
  bind (peek_token lx) (fun t lx1 =>
  let p := type t in
  bind (peek_token lx1) (fun t' lx2 =>
  let s := as_string (input_ lx2) t' in
  if negb (TokenType_eqb p tt) && negb (String.eqb s raw) then
    let msg :=
      ("expected " ++ tokentype2str tt ++ " or `" ++ raw ++ "'")%string in
    throw_syntax_error (unless_nop p msg (" instead of `" ++ s ++ "'")) lx2
  else get_token lx2)).

(** [get_expected_token(const string& raw1, const string& raw2)]. *)
Definition get_expected_token_raw2 (raw1 raw2 : string) (lx : Lexer)
    : outcome Token :=
  bind (peek_token lx) (fun t lx1 =>
  let p := type t in
  bind (peek_token lx1) (fun t' lx2 =>
  let s := as_string (input_ lx2) t' in
  if negb (String.eqb s raw1) && negb (String.eqb s raw2) then
    let msg := ("expected `" ++ raw1 ++ "' or `" ++ raw2 ++ "'")%string in
    throw_syntax_error (unless_nop p msg (" instead of `" ++ s ++ "'")) lx2
  else get_token lx2)).

Definition get_token_if (tt : TokenType) (lx : Lexer) : outcome Token :=
  bind (peek_token lx) (fun t lx1 =>
  if TokenType_eqb (type t) tt then get_token lx1
  else Ret (mkToken (cur_ lx1) kTokenNop 0 ValueUnset) lx1).

(** *** The states a lexer goes through *)

(** The public member functions that change the object. *)
Inductive call : Type :=
  | CallGetToken
  | CallPeekToken
  | CallGoBack (token : Token)
  | CallGetGlobToken
  | CallGetWordToken
  | CallGetRestOfCmd
  | CallGetRestOfLine
  | CallGetExpectedRaw (raw : string)
  | CallGetExpected (tt : TokenType)
  | CallGetExpectedTt2 (tt1 tt2 : TokenType)
  | CallGetExpectedTtRaw (tt : TokenType) (raw : string)
  | CallGetExpectedRaw2 (raw1 raw2 : string)
  | CallGetTokenIf (tt : TokenType).

(** The state a call leaves the object in, whether it returns or throws. *)
Definition after (c : call) (lx : Lexer) : Lexer :=
  match c with
  | CallGetToken => state_of (get_token lx)
  | CallPeekToken => state_of (peek_token lx)
  | CallGoBack token => state_of (go_back token lx)
  | CallGetGlobToken => state_of (get_glob_token lx)
  | CallGetWordToken => state_of (get_word_token lx)
  | CallGetRestOfCmd => state_of (get_rest_of_cmd lx)
  | CallGetRestOfLine => state_of (get_rest_of_line lx)
  | CallGetExpectedRaw raw => state_of (get_expected_token_raw raw lx)
  | CallGetExpected ty => state_of (get_expected_token ty lx)
  | CallGetExpectedTt2 tt1 tt2 => state_of (get_expected_token_tt2 tt1 tt2 lx)
  | CallGetExpectedTtRaw ty raw =>
      state_of (get_expected_token_tt_raw ty raw lx)
  | CallGetExpectedRaw2 raw1 raw2 =>
      state_of (get_expected_token_raw2 raw1 raw2 lx)
  | CallGetTokenIf ty => state_of (get_token_if ty lx)
  end.

(** A state of a lexer over [input]: the state after construction, or the
    state after one more call. *)
Inductive reachable (input : list ascii) : Lexer -> Prop :=
  | reachable_new (tok0 : Token) : reachable input (Lexer_new input tok0)
  | reachable_call (c : call) (lx : Lexer) :
      reachable input lx -> reachable input (after c lx).

(** While a token is buffered, the cursor is at its end. *)
Definition buffered_at_cursor (lx : Lexer) : Prop :=
  peeked_ lx = true -> cur_ lx = str (tok_ lx) + length (tok_ lx).

(** What holds of every state of a lexer over [input]. *)
Definition good (input : list ascii) (lx : Lexer) : Prop :=
  input_ lx = input /\ buffered_at_cursor lx.

(** The lexer is over [input] and its cursor is inside it, at the
    terminator at most. *)
Definition inside (input : list ascii) (lx : Lexer) : Prop :=
  input_ lx = input /\ cur_ lx <= List.length input.

(** A buffered token is the token that [read_token] reads at its start,
    and reading it brings the cursor where it is. *)
Definition buffered_rereads (lx : Lexer) : Prop :=
  peeked_ lx = true ->
  read_token false (set_cur (str (tok_ lx)) lx) = Ret tt lx.

(** What is expected of the C library: [strtod] and [strtol] do not read
    beyond the string they are given, *)
Definition libc_in_bounds : Prop :=
  (forall s, snd (strtod s) <= List.length s)
  /\ (forall s, snd (strtol s) <= List.length s).

(** and [strtod] reads at least one character of a string that starts
    with a digit, or with a dot and a digit. *)
Definition strtod_progress : Prop :=
  forall s,
    isdigit (char_at s 0) = true
    \/ (char_at s 0 = "."%char /\ isdigit (char_at s 1) = true) ->
    1 <= snd (strtod s).

End WithLibc.

Arguments ValueI {double} i.
Arguments ValueD {double} d.
Arguments ValueUnset {double}.
Arguments mkToken {double} str type length value.
Arguments str {double} t.
Arguments type {double} t.
Arguments length {double} t.
Arguments value {double} t.
Arguments as_string {double} input token.
Arguments get_string {double} input token.
Arguments mkLexer {double} input_ cur_ peeked_ tok_.
Arguments input_ {double} l.
Arguments cur_ {double} l.
Arguments peeked_ {double} l.
Arguments tok_ {double} l.
Arguments Lexer_new {double} input tok0.
Arguments Ret {double A} a lx.
Arguments Throw {double A} msg lx.
Arguments state_of {double A} m.
Arguments set_peeked {double} b lx.
Arguments set_cur {double} p lx.
Arguments read_token {double} strtod strtol allow_glob lx.
Arguments get_token {double} strtod strtol lx.
Arguments peek_token {double} strtod strtol lx.
Arguments go_back {double} token lx.
Arguments get_glob_token {double} strtod strtol lx.
Arguments get_word_token {double} strtod strtol lx.
Arguments get_rest_of_cmd {double} strtod strtol lx.
Arguments get_rest_of_line {double} lx.
Arguments throw_syntax_error {double A} msg lx.
Arguments get_expected_token_raw {double} strtod strtol raw lx.
Arguments get_expected_token {double} strtod strtol tt lx.
Arguments get_expected_token_tt2 {double} strtod strtol tt1 tt2 lx.
Arguments get_expected_token_tt_raw {double} strtod strtol tt raw lx.
Arguments get_expected_token_raw2 {double} strtod strtol raw1 raw2 lx.
Arguments get_token_if {double} strtod strtol tt lx.
Arguments after {double} strtod strtol c lx.
Arguments reachable {double} strtod strtol input _.
Arguments buffered_at_cursor {double} lx.
Arguments good {double} input lx.
Arguments inside {double} input lx.
Arguments buffered_rereads {double} strtod strtol lx.
Arguments libc_in_bounds {double} strtod strtol.
Arguments strtod_progress {double} strtod.

(** *** A C library to run the lexer with

    A stand-in for [strtod] and [strtol] on plain decimal literals,
    [digits [. digits] [e [+|-] digits]]; the [double] is kept as the text
    of the literal. *)

Definition literal : Type := list ascii.

Definition exponent_span (s : list ascii) : nat :=
  match s with
  | e :: s' =>
      if Ascii.eqb e "e" || Ascii.eqb e "E" then
        let sign :=
          match s' with
          | c :: _ => if Ascii.eqb c "+" || Ascii.eqb c "-" then 1 else 0
          | [] => 0
          end in
        let d := span isdigit (skipn sign s') in
        if Nat.eqb d 0 then 0 else 1 + sign + d
      else 0
  | [] => 0
  end.

Definition decimal_span (s : list ascii) : nat :=
  let i := span isdigit s in
  let f :=
    match skipn i s with
    | c :: r => if Ascii.eqb c "." then 1 + span isdigit r else 0
    | [] => 0
    end in
  i + f + exponent_span (skipn (i + f) s).

Definition decimal_strtod (s : list ascii) : literal * nat :=
  let n := decimal_span s in (firstn n s, n).

Definition decimal_strtol (s : list ascii) : Z * nat :=
  let n := span isdigit s in
  (fold_left (fun acc c => (10 * acc + Z.of_nat (nat_of_ascii c - 48))%Z)
             (firstn n s) 0%Z, n).

(** A lexer on the text [s], with the stand-in library. *)
Definition tok0 : Token literal := mkToken 0 kTokenNop 0 ValueUnset.

Definition lexer_on (s : string) : Lexer literal :=
  Lexer_new (list_ascii_of_string s) tok0.

(** The kinds and texts of the first [n] tokens of a lexer, up to the nil
    token or an error. *)
Fixpoint token_list (n : nat) (lx : Lexer literal)
    : list (TokenType * string) :=
  match n with
  | 0 => []
  | S n' =>
      match get_token decimal_strtod decimal_strtol lx with
      | Ret t lx1 =>
          if TokenType_eqb (type t) kTokenNop then []
          else (type t, as_string (input_ lx1) t) :: token_list n' lx1
      | Throw _ _ => []
      end
  end.

End Lex.

(** ** Ordering the files of the command line (wxgui/app.cpp) *)

Module App.

(** [s[n]] of a [std::string], for [n] up to its size. *)
Definition char_of (s : string) (n : nat) : ascii :=
  match String.get n s with
  | Some c => c
  | None => Lex.NUL
  end.

(** The inner loop of [find_common_prefix_length]: whether one of the
    strings after the first is too short to have a character [n], or has
    another one there than the first string. *)
Fixpoint differs_at (first : string) (n : nat) (rest : list string) : bool :=
  match rest with
  | [] => false
  | i :: rest' =>
      if (String.length i <=? n)%nat
         || negb (Ascii.eqb (char_of i n) (char_of first n))
      then true
      else differs_at first n rest'
  end.

(** The outer loop, with [steps] iterations left before [n] reaches the
    size of the first string. *)
Fixpoint prefix_loop (steps n : nat) (first : string) (rest : list string)
    : nat :=
  match steps with
  | 0 => n
  | S steps' =>
      if differs_at first n rest then n
      else prefix_loop steps' (S n) first rest
  end.

(** [find_common_prefix_length]; [None] is the failure of
    [assert(p.size() > 1)].  The result is returned as an [int]. *)
Definition find_common_prefix_length (p : list string) : option Z :=
  match p with
  | first :: second :: more =>
      Some (Lex.to_int
              (Z.of_nat (prefix_loop (String.length first) 0 first
                           (second :: more))))
  | _ => None
  end.

End App.

(* ================================================================== *)
(** * Part II.  Theorems *)
(* ================================================================== *)

(** ** The definition manager *)

Module DefMgrFacts.
Import DefMgr.

Example get_commands_sample :
  get_commands as_formula
    [tp "A" ["x"] "x"; tp "B" ["x"] "2*x"; tp "C" [] "1"]
    [tp "A" ["x"] "x"; tp "B" ["x"] "3*x"; tp "D" ["a"; "b"] "a+b"]
  = ["undefine C"; "undefine B"; "define B(x) = 3*x"; "define D(a, b) = a+b"].
Proof. reflexivity. Qed.

Example as_formula_sample :
  as_formula
    (mkTplate "Gaussian" ["height"; "center"; "hwhm"]
       [EmptyString; EmptyString; "1"]
       "height*exp(-ln(2)*((x-center)/hwhm)^2)" 2 false None [])
  = "Gaussian(height, center, hwhm=1) = height*exp(-ln(2)*((x-center)/hwhm)^2)".
Proof. reflexivity. Qed.

Lemma vec_eqb_eq (a b : list string) : vec_eqb a b = true <-> a = b.
Proof.
  unfold vec_eqb. destruct (list_eq_dec string_dec a b); split;
    congruence.
Qed.

Lemma is_undefine_cmd (n : string) :
  is_undefine ("undefine " ++ n) = true /\ is_define ("undefine " ++ n) = false.
Proof.
  split; [| reflexivity].
  unfold is_undefine. simpl.
  repeat (destruct (ascii_dec _ _) as [_ | E]; [| now elim E]).
  now destruct n.
Qed.

Lemma is_define_cmd (f : string) : is_define ("define " ++ f) = true.
Proof.
  unfold is_define. simpl.
  repeat (destruct (ascii_dec _ _) as [_ | E]; [| now elim E]).
  now destruct f.
Qed.

Lemma same_fields_eqb (a b : Tplate) :
  vec_eqb (fargs a) (fargs b) && vec_eqb (defvals a) (defvals b)
    && String.eqb (rhs a) (rhs b) = true
  <-> same_definition a b.
Proof.
  unfold same_definition.
  rewrite !andb_true_iff, !vec_eqb_eq, String.eqb_eq. tauto.
Qed.

Section Passes.

Variable f : Tplate -> string.


(** The vector being filled only grows at its end. *)
Lemma undefine_removed_acc (tpvec modified_ : list Tplate) (ss : list string) :
  undefine_removed tpvec modified_ ss = ss ++ undefine_removed tpvec modified_ [].
Proof.
  unfold undefine_removed. revert ss.
  induction tpvec as [| i tpvec IH]; intros ss; simpl.
  - now rewrite app_nil_r.
  - rewrite IH. symmetry. rewrite IH. symmetry.
    destruct (name_found (name i) modified_); simpl.
    + reflexivity.
    + now rewrite <- app_assoc.
Qed.

Lemma match_committed_acc (i : Tplate) (tpvec : list Tplate) (ss : list string) :
  match_committed i tpvec ss
  = (fst (match_committed i tpvec []), ss ++ snd (match_committed i tpvec [])).
Proof.
  induction tpvec as [| j tpvec IH]; simpl.
  - now rewrite app_nil_r.
  - destruct (String.eqb (name i) (name j)); [| exact IH].
    destruct (vec_eqb (fargs i) (fargs j) && vec_eqb (defvals i) (defvals j)
              && String.eqb (rhs i) (rhs j)); simpl.
    + now rewrite app_nil_r.
    + reflexivity.
Qed.

(** The inner loop is decided by the first committed template that has
    the name of [i]. *)
Lemma match_committed_find (i : Tplate) (tpvec : list Tplate) :
  match_committed i tpvec [] =
  match find (fun j => String.eqb (name i) (name j)) tpvec with
  | None => (true, [])
  | Some j =>
      if vec_eqb (fargs i) (fargs j) && vec_eqb (defvals i) (defvals j)
         && String.eqb (rhs i) (rhs j)
      then (false, []) else (true, [undefine_cmd i])
  end.
Proof.
  induction tpvec as [| j tpvec IH]; simpl.
  - reflexivity.
  - destruct (String.eqb (name i) (name j)); [reflexivity | exact IH].
Qed.

Lemma define_changed_acc (tpvec modified_ : list Tplate) (ss : list string) :
  define_changed f tpvec modified_ ss = ss ++ define_changed f tpvec modified_ [].
Proof.
  unfold DefMgr.define_changed. revert ss.
  induction modified_ as [| i w IH]; intros ss; simpl.
  - now rewrite app_nil_r.
  - rewrite IH. symmetry. rewrite IH. symmetry.
    rewrite (match_committed_acc i tpvec ss).
    destruct (match_committed i tpvec []) as [need ss1]; simpl.
    destruct need; now rewrite <- ?app_assoc.
Qed.

Lemma define_changed_cons (tpvec : list Tplate) (i : Tplate)
    (w : list Tplate) :
  define_changed f tpvec (i :: w) []
  = define_changed f tpvec [i] [] ++ define_changed f tpvec w [].
Proof.
  change (define_changed f tpvec (i :: w) [])
    with (define_changed f tpvec w (define_changed f tpvec [i] [])).
  apply define_changed_acc.
Qed.

Lemma define_changed_app (tpvec w1 w2 : list Tplate) :
  define_changed f tpvec (w1 ++ w2) []
  = define_changed f tpvec w1 [] ++ define_changed f tpvec w2 [].
Proof.
  rewrite <- (define_changed_acc tpvec w2).
  unfold DefMgr.define_changed. now rewrite fold_left_app.
Qed.

Lemma get_commands_passes (tpvec modified_ : list Tplate) :
  get_commands f tpvec modified_
  = undefine_removed tpvec modified_ [] ++ define_changed f tpvec modified_ [].
Proof. unfold DefMgr.get_commands. apply define_changed_acc. Qed.

(** What one working-copy template contributes. *)
Lemma define_changed_one (tpvec : list Tplate) (i : Tplate) :
  define_changed f tpvec [i] [] =
  match find (fun j => String.eqb (name i) (name j)) tpvec with
  | None => [define_cmd f i]
  | Some j =>
      if vec_eqb (fargs i) (fargs j) && vec_eqb (defvals i) (defvals j)
         && String.eqb (rhs i) (rhs j)
      then [] else [undefine_cmd i; define_cmd f i]
  end.
Proof.
  unfold DefMgr.define_changed. simpl. rewrite match_committed_find.
  destruct (find _ tpvec) as [j |]; [| reflexivity].
  destruct (vec_eqb (fargs i) (fargs j) && vec_eqb (defvals i) (defvals j)
            && String.eqb (rhs i) (rhs j)); reflexivity.
Qed.

Lemma define_changed_one_cases (tpvec : list Tplate) (i : Tplate) :
  template_cmds (define_cmd f) i (define_changed f tpvec [i] []).
Proof.
  rewrite define_changed_one. unfold template_cmds.
  destruct (find _ tpvec) as [j |]; [| auto].
  destruct (vec_eqb (fargs i) (fargs j) && vec_eqb (defvals i) (defvals j)
            && String.eqb (rhs i) (rhs j)); auto.
Qed.

Lemma undefine_removed_cons (i : Tplate) (tpvec modified_ : list Tplate) :
  undefine_removed (i :: tpvec) modified_ []
  = (if name_found (name i) modified_ then [] else [undefine_cmd i])
      ++ undefine_removed tpvec modified_ [].
Proof.
  change (undefine_removed (i :: tpvec) modified_ [])
    with (undefine_removed tpvec modified_
            (if name_found (name i) modified_ then []
             else [] ++ [undefine_cmd i])).
  rewrite undefine_removed_acc.
  now destruct (name_found (name i) modified_).
Qed.

(** The first pass emits [undefine]s only, for committed names that the
    working copy lacks. *)
Lemma undefine_removed_spec (tpvec modified_ : list Tplate) :
  Forall (fun cmd => exists i, In i tpvec
                       /\ name_found (name i) modified_ = false
                       /\ cmd = undefine_cmd i)
         (undefine_removed tpvec modified_ []).
Proof.
  induction tpvec as [| i tpvec IH].
  - constructor.
  - rewrite undefine_removed_cons. apply Forall_app. split.
    + destruct (name_found (name i) modified_) eqn:Hf; constructor; [| constructor].
      exists i. simpl. auto.
    + eapply Forall_impl; [| exact IH].
      intros cmd (i0 & Hin & Hnf & ->). exists i0. simpl. auto.
Qed.

Lemma name_found_In (n : string) (modified_ : list Tplate) :
  name_found n modified_ = true <-> exists j, In j modified_ /\ name j = n.
Proof.
  induction modified_ as [| j w IH]; simpl.
  - split; [discriminate | intros (j & [] & _)].
  - destruct (String.eqb n (name j)) eqn:E.
    + apply String.eqb_eq in E. split; [| reflexivity].
      intros _. exists j. auto.
    + apply String.eqb_neq in E. rewrite IH. split.
      * intros (k & Hk & Hn). exists k. auto.
      * intros (k & [-> | Hk] & Hn); [congruence |]. exists k. auto.
Qed.

Lemma name_found_same_text (n : string) (m1 m2 : list Tplate) :
  Forall2 same_text m1 m2 -> name_found n m1 = name_found n m2.
Proof.
  induction 1 as [| a b m1 m2 [Hn _] _ IH]; simpl.
  - reflexivity.
  - now rewrite Hn, IH.
Qed.

Lemma undefine_removed_same_text (tpvec m1 m2 : list Tplate) :
  Forall2 same_text m1 m2 ->
  undefine_removed tpvec m1 [] = undefine_removed tpvec m2 [].
Proof.
  intros H. induction tpvec as [| i tpvec IH].
  - reflexivity.
  - now rewrite !undefine_removed_cons, IH, (name_found_same_text _ _ _ H).
Qed.

Lemma define_changed_one_same_text (tpvec : list Tplate) (a b : Tplate) :
  (forall x y, same_text x y -> f x = f y) ->
  same_text a b ->
  define_changed f tpvec [a] [] = define_changed f tpvec [b] [].
Proof.
  intros Hf Hab. rewrite !define_changed_one.
  unfold define_cmd, undefine_cmd. rewrite (Hf a b Hab).
  destruct Hab as (Hn & Ha & Hd & Hr).
  now rewrite Hn, Ha, Hd, Hr.
Qed.

Lemma define_changed_same_text (tpvec m1 m2 : list Tplate) :
  (forall x y, same_text x y -> f x = f y) ->
  Forall2 same_text m1 m2 ->
  define_changed f tpvec m1 [] = define_changed f tpvec m2 [].
Proof.
  intros Hf. induction 1 as [| a b m1 m2 Hab _ IH].
  - reflexivity.
  - rewrite (define_changed_cons tpvec a), (define_changed_cons tpvec b).
    now rewrite IH, (define_changed_one_same_text tpvec a b Hf Hab).
Qed.

(** With unique names, looking a committed template up by its name finds
    the template itself. *)
Lemma find_by_name (tpvec : list Tplate) (c : Tplate) :
  NoDup (map name tpvec) -> In c tpvec ->
  find (fun j => String.eqb (name c) (name j)) tpvec = Some c.
Proof.
  induction tpvec as [| j tpvec IH]; simpl; intros Hnd Hin.
  - contradiction.
  - inversion Hnd as [| n l Hnotin Hnd']; subst.
    destruct Hin as [-> | Hin].
    + now rewrite String.eqb_refl.
    + destruct (String.eqb (name c) (name j)) eqn:E.
      * apply String.eqb_eq in E. elim Hnotin. rewrite <- E.
        now apply in_map.
      * now apply IH.
Qed.

(** A working-copy template that agrees with the committed template of
    its name contributes nothing to the second pass. *)
Lemma define_changed_one_same (tpvec : list Tplate) (t c : Tplate) :
  NoDup (map name tpvec) -> In c tpvec -> same_text t c ->
  define_changed f tpvec [t] [] = [].
Proof.
  intros Hnd Hin [Hn Hsame]. rewrite define_changed_one, Hn.
  rewrite (find_by_name tpvec c Hnd Hin).
  apply same_fields_eqb in Hsame. now rewrite Hsame.
Qed.

Lemma define_changed_all_same (tpvec w : list Tplate) :
  NoDup (map name tpvec) ->
  Forall (fun t => exists c, In c tpvec /\ same_text t c) w ->
  define_changed f tpvec w [] = [].
Proof.
  intros Hnd. induction 1 as [| t w (c & Hin & Hsame) _ IH].
  - reflexivity.
  - now rewrite define_changed_cons, IH,
      (define_changed_one_same tpvec t c Hnd Hin Hsame).
Qed.

(** Nothing is undefined in the first pass when every committed name is
    in the working copy. *)
Lemma undefine_removed_none (tpvec modified_ : list Tplate) :
  (forall i, In i tpvec -> name_found (name i) modified_ = true) ->
  undefine_removed tpvec modified_ [] = [].
Proof.
  intros Hall. pose proof (undefine_removed_spec tpvec modified_) as H.
  destruct (undefine_removed tpvec modified_ []) as [| cmd l]; [reflexivity |].
  inversion H as [| x y (i & Hin & Hnf & _) _]; subst.
  rewrite (Hall i Hin) in Hnf. discriminate.
Qed.

Lemma same_text_refl (t : Tplate) : same_text t t.
Proof. repeat split. Qed.

Lemma get_commands_same_nil (tpvec modified_ : list Tplate) :
  NoDup (map name tpvec) ->
  Forall2 same_text modified_ tpvec ->
  get_commands f tpvec modified_ = [].
Proof.
  intros Hnd H2. rewrite get_commands_passes.
  rewrite undefine_removed_none, define_changed_all_same; trivial.
  - clear Hnd. induction H2 as [| t c w l Htc _ IH]; constructor.
    + exists c. simpl. auto.
    + eapply Forall_impl; [| exact IH].
      intros a (c0 & Hin & Hs). exists c0. simpl. auto.
  - intros i Hin. apply name_found_In.
    clear Hnd. induction H2 as [| t c w l [Hn _] _ IH]; [contradiction |].
    destruct Hin as [-> | Hin].
    + exists t. simpl. auto.
    + destruct (IH Hin) as (j & Hj & Hjn). exists j. simpl. auto.
Qed.

Lemma undefine_cmd_inj (a b : Tplate) :
  undefine_cmd a = undefine_cmd b -> name a = name b.
Proof. unfold undefine_cmd. simpl. congruence. Qed.

Lemma name_found_existsb (n : string) (modified_ : list Tplate) :
  name_found n modified_
  = existsb (fun j => String.eqb n (name j)) modified_.
Proof.
  induction modified_ as [| j w IH]; simpl; [reflexivity |].
  rewrite IH. now destruct (String.eqb n (name j)).
Qed.

(** The first pass, as a filter over the committed templates. *)
Lemma undefine_removed_filter (tpvec modified_ : list Tplate) :
  undefine_removed tpvec modified_ []
  = map undefine_cmd
      (filter (fun c =>
                 negb (existsb (fun j => String.eqb (name c) (name j))
                         modified_))
              tpvec).
Proof.
  induction tpvec as [| i tpvec IH]; [reflexivity |].
  rewrite undefine_removed_cons, IH, name_found_existsb. simpl.
  now destruct (existsb (fun j => String.eqb (name i) (name j)) modified_).
Qed.

(** What one working-copy template contributes, by the committed
    template of its name (the first one) and by whether it differs. *)
Lemma define_changed_one_by_case (tpvec : list Tplate) (t : Tplate) :
  match find (fun j => String.eqb (name t) (name j)) tpvec with
  | None => define_changed f tpvec [t] [] = [define_cmd f t]
  | Some j =>
      (same_definition t j /\ define_changed f tpvec [t] [] = [])
      \/ (~ same_definition t j
          /\ define_changed f tpvec [t] []
             = [undefine_cmd t; define_cmd f t])
  end.
Proof.
  rewrite define_changed_one.
  destruct (find _ tpvec) as [j |]; [| reflexivity].
  destruct (vec_eqb (fargs t) (fargs j) && vec_eqb (defvals t) (defvals j)
            && String.eqb (rhs t) (rhs j)) eqn:E.
  - left. split; [now apply same_fields_eqb | reflexivity].
  - right. split; [| reflexivity].
    intros Hs. apply same_fields_eqb in Hs. congruence.
Qed.

(** C1 (amended): the commands returned by [get_commands] are exactly
    these, in this order.  First, one [undefine] for every committed
    template whose name no working-copy template has, in the committed
    order.  Then, for each working-copy template in turn, by the
    committed template of its name: its [define] when there is none
    (new); nothing when there is one with the same formal arguments,
    default values and right-hand side (unchanged); its [undefine]
    immediately followed by its [define] when there is one that differs
    (changed).  The commands of the first kind, which open the
    sequence, are [undefine]s and none of them is a [define]; the
    [undefine] of a changed template comes after whatever the templates
    before it contributed. *)
Theorem get_commands_order (tpvec modified_ : list Tplate) :
  exists removed chunks,
    get_commands f tpvec modified_
      = map undefine_cmd removed ++ List.concat chunks
    /\ removed
       = filter (fun c =>
                   negb (existsb (fun j => String.eqb (name c) (name j))
                           modified_))
                tpvec
    /\ Forall2
         (fun t cs =>
            match find (fun j => String.eqb (name t) (name j)) tpvec with
            | None => cs = [define_cmd f t]
            | Some j =>
                (same_definition t j /\ cs = [])
                \/ (~ same_definition t j
                    /\ cs = [undefine_cmd t; define_cmd f t])
            end)
         modified_ chunks
    /\ (forall t, is_undefine (undefine_cmd t) = true
                  /\ is_define (undefine_cmd t) = false
                  /\ is_define (define_cmd f t) = true
                  /\ is_undefine (define_cmd f t) = false)
    /\ Forall (fun cmd => is_undefine cmd = true /\ is_define cmd = false)
         (firstn (List.length removed) (get_commands f tpvec modified_)).
Proof.
  set (removed :=
         filter (fun c =>
                   negb (existsb (fun j => String.eqb (name c) (name j))
                           modified_))
                tpvec).
  set (chunks := map (fun t => define_changed f tpvec [t] []) modified_).
  assert (Hout : get_commands f tpvec modified_
                 = map undefine_cmd removed ++ List.concat chunks).
  { rewrite get_commands_passes, undefine_removed_filter. fold removed.
    f_equal. subst chunks.
    induction modified_ as [| t w IH]; [reflexivity |].
    rewrite define_changed_cons, IH. reflexivity. }
  exists removed, chunks.
  split; [exact Hout |]. split; [reflexivity |].
  split; [| split].
  - subst chunks. clear Hout.
    induction modified_ as [| t w IH]; constructor; trivial.
    pose proof (define_changed_one_by_case tpvec t) as H.
    destruct (find _ tpvec) as [j |]; exact H.
  - intros t. destruct (is_undefine_cmd (name t)) as [Hu Hd].
    split; [exact Hu |]. split; [exact Hd |].
    split; [apply is_define_cmd | reflexivity].
  - rewrite Hout, firstn_app, length_map, Nat.sub_diag. simpl.
    rewrite app_nil_r, firstn_all2 by now rewrite length_map.
    apply Forall_forall. intros cmd Hin.
    apply in_map_iff in Hin as (c & <- & _). apply is_undefine_cmd.
Qed.

(** C2 (amended): [get_commands] does not look for duplicate names and
    has no error to report.  When the working copy holds two templates
    of one name that differ in formal arguments, default values or
    right-hand side, the commands still come out, and among them is the
    [define] of at least one of the two. *)
Theorem get_commands_duplicate_names (tpvec w1 w2 w3 : list Tplate)
    (t1 t2 : Tplate) :
  name t1 = name t2 ->
  ~ same_definition t1 t2 ->
  In (define_cmd f t1) (get_commands f tpvec (w1 ++ t1 :: w2 ++ t2 :: w3))
  \/ In (define_cmd f t2) (get_commands f tpvec (w1 ++ t1 :: w2 ++ t2 :: w3)).
Proof.
  intros Hn Hdiff. rewrite get_commands_passes.
  rewrite define_changed_app, define_changed_cons, define_changed_app,
    (define_changed_cons tpvec t2).
  assert (H : In (define_cmd f t1) (define_changed f tpvec [t1] [])
              \/ In (define_cmd f t2) (define_changed f tpvec [t2] [])).
  { rewrite !define_changed_one, <- Hn.
    destruct (find _ tpvec) as [j |]; [| left; simpl; auto].
    destruct (vec_eqb (fargs t1) (fargs j) && vec_eqb (defvals t1) (defvals j)
              && String.eqb (rhs t1) (rhs j)) eqn:E1;
      [| left; simpl; auto].
    destruct (vec_eqb (fargs t2) (fargs j) && vec_eqb (defvals t2) (defvals j)
              && String.eqb (rhs t2) (rhs j)) eqn:E2;
      [| right; simpl; auto].
    apply same_fields_eqb in E1, E2. elim Hdiff.
    destruct E1 as (A1 & D1 & R1), E2 as (A2 & D2 & R2).
    repeat split; congruence. }
  destruct H as [H | H]; [left | right];
    rewrite !in_app_iff; tauto.
Qed.

(** C4: reconciling a committed sequence (of unique names, as the
    registry keeps them) against itself gives no command; and a
    working-copy template whose name, formal arguments, default values
    and right-hand side are those of the committed template of that name
    contributes none: the second pass gives what it gives for the
    templates before and after it, and the first pass has no [undefine]
    of its name. *)
Theorem get_commands_unchanged (tpvec : list Tplate) :
  NoDup (map name tpvec) ->
  get_commands f tpvec tpvec = []
  /\ forall (w1 w2 : list Tplate) (t c : Tplate),
       In c tpvec -> same_text t c ->
       get_commands f tpvec (w1 ++ t :: w2)
         = undefine_removed tpvec (w1 ++ t :: w2) []
             ++ define_changed f tpvec w1 [] ++ define_changed f tpvec w2 []
       /\ Forall (fun cmd => cmd <> undefine_cmd t)
                 (undefine_removed tpvec (w1 ++ t :: w2) []).
Proof.
  intros Hnd. split.
  - apply get_commands_same_nil; trivial.
    clear Hnd. induction tpvec; constructor; trivial. apply same_text_refl.
  - intros w1 w2 t c Hin Hsame. split.
    + rewrite get_commands_passes, define_changed_app, define_changed_cons.
      now rewrite (define_changed_one_same tpvec t c Hnd Hin Hsame).
    + eapply Forall_impl; [| apply undefine_removed_spec].
      intros cmd (i & _ & Hnf & ->) Heq.
      apply undefine_cmd_inj in Heq.
      assert (Hf : name_found (name i) (w1 ++ t :: w2) = true).
      { apply name_found_In. exists t. split; [| congruence].
        apply in_or_app. simpl. auto. }
      congruence.
Qed.

(** C9: [get_commands] reads the name, the formal arguments, the default
    values and the right-hand side of the working-copy templates, and
    nothing else of them: with an [as_formula] that renders these four
    fields only, two working copies that agree on them give the same
    commands, whatever their traits, documentation anchors and native
    flags; and a working copy that agrees on them with the committed
    templates gives no command. *)
Theorem get_commands_fields (tpvec m1 m2 : list Tplate) :
  (forall x y, same_text x y -> f x = f y) ->
  Forall2 same_text m1 m2 ->
  get_commands f tpvec m1 = get_commands f tpvec m2
  /\ (NoDup (map name tpvec) -> Forall2 same_text m1 tpvec ->
      get_commands f tpvec m1 = []).
Proof.
  intros Hf H12. split.
  - rewrite !get_commands_passes.
    now rewrite (undefine_removed_same_text tpvec m1 m2 H12),
      (define_changed_same_text tpvec m1 m2 Hf H12).
  - intros Hnd H1. now apply get_commands_same_nil.
Qed.

End Passes.

(** The spec's [as_formula] renders the four fields only. *)
Lemma as_formula_same_text (x y : Tplate) :
  same_text x y -> as_formula x = as_formula y.
Proof.
  intros (Hn & Ha & Hd & Hr). unfold as_formula.
  now rewrite Hn, Ha, Hd, Hr.
Qed.

(** C1, as stated, fails: with two changed templates the [define] of the
    first stands before the [undefine] of the second. *)
Lemma get_commands_interleaves :
  get_commands as_formula
    [tp "A" ["x"] "x"; tp "B" ["x"] "x"]
    [tp "A" ["x"] "2*x"; tp "B" ["x"] "2*x"]
  = ["undefine A"; "define A(x) = 2*x"; "undefine B"; "define B(x) = 2*x"]
  /\ ~ undefines_before_defines
       (get_commands as_formula
          [tp "A" ["x"] "x"; tp "B" ["x"] "x"]
          [tp "A" ["x"] "2*x"; tp "B" ["x"] "2*x"]).
Proof.
  split; [reflexivity |].
  intros H.
  pose proof (H 1 2 "define A(x) = 2*x" "undefine B"
                eq_refl eq_refl eq_refl eq_refl) as Hlt.
  lia.
Qed.

(** C2, as stated, fails: a working copy with two templates named [A] is
    turned into two [define]s. *)
Lemma get_commands_accepts_duplicates :
  ~ NoDup (map name [tp "A" ["x"] "x"; tp "A" ["x"] "2*x"])
  /\ get_commands as_formula [] [tp "A" ["x"] "x"; tp "A" ["x"] "2*x"]
     = ["define A(x) = x"; "define A(x) = 2*x"].
Proof.
  split; [| reflexivity].
  intros H. inversion H as [| a l Hnotin _]; subst.
  apply Hnotin. simpl. auto.
Qed.

Lemma get_commands_duplicate_names_witness :
  name (tp "A" ["x"] "x") = name (tp "A" ["x"] "2*x")
  /\ ~ same_definition (tp "A" ["x"] "x") (tp "A" ["x"] "2*x")
  /\ (In (define_cmd as_formula (tp "A" ["x"] "x"))
         (get_commands as_formula [tp "A" ["x"] "x"]
            ([] ++ tp "A" ["x"] "x" :: [] ++ tp "A" ["x"] "2*x" :: []))
      \/ In (define_cmd as_formula (tp "A" ["x"] "2*x"))
         (get_commands as_formula [tp "A" ["x"] "x"]
            ([] ++ tp "A" ["x"] "x" :: [] ++ tp "A" ["x"] "2*x" :: []))).
Proof.
  assert (Hn : name (tp "A" ["x"] "x") = name (tp "A" ["x"] "2*x"))
    by reflexivity.
  assert (Hd : ~ same_definition (tp "A" ["x"] "x") (tp "A" ["x"] "2*x")).
  { intros (_ & _ & Hr). simpl in Hr. discriminate Hr. }
  split; [exact Hn |]. split; [exact Hd |].
  exact (get_commands_duplicate_names as_formula [tp "A" ["x"] "x"]
           [] [] [] (tp "A" ["x"] "x") (tp "A" ["x"] "2*x") Hn Hd).
Defined.

Lemma get_commands_unchanged_witness :
  NoDup (map name [tp "A" ["x"] "x"; tp "B" ["x"] "2*x"])
  /\ get_commands as_formula [tp "A" ["x"] "x"; tp "B" ["x"] "2*x"]
       [tp "A" ["x"] "x"; tp "B" ["x"] "2*x"] = [].
Proof.
  assert (Hnd : NoDup (map name [tp "A" ["x"] "x"; tp "B" ["x"] "2*x"])).
  { simpl. repeat constructor; simpl; intuition discriminate. }
  split; [exact Hnd |].
  exact (proj1 (get_commands_unchanged as_formula
                  [tp "A" ["x"] "x"; tp "B" ["x"] "2*x"] Hnd)).
Defined.

Lemma get_commands_fields_witness :
  Forall2 same_text
    [mkTplate "B" ["x"] [EmptyString] "3*x" 1 false None []]
    [mkTplate "B" ["x"] [EmptyString] "3*x" 4 true (Some "b") []]
  /\ get_commands as_formula [tp "B" ["x"] "2*x"]
       [mkTplate "B" ["x"] [EmptyString] "3*x" 1 false None []]
     = get_commands as_formula [tp "B" ["x"] "2*x"]
         [mkTplate "B" ["x"] [EmptyString] "3*x" 4 true (Some "b") []].
Proof.
  assert (H2 : Forall2 same_text
    [mkTplate "B" ["x"] [EmptyString] "3*x" 1 false None []]
    [mkTplate "B" ["x"] [EmptyString] "3*x" 4 true (Some "b") []]).
  { repeat constructor. }
  split; [exact H2 |].
  exact (proj1 (get_commands_fields as_formula [tp "B" ["x"] "2*x"] _ _
                  as_formula_same_text H2)).
Defined.

End DefMgrFacts.

(** ** The lexer *)

Module LexFacts.
Import Lex.

Example token_list_sample :
  token_list 10 (lexer_on "$a = 1.5 + 2.0e-1")
  = [(kTokenVarname, "$a"); (kTokenAssign, "="); (kTokenNumber, "1.5");
     (kTokenPlus, "+"); (kTokenNumber, "2.0e-1")].
Proof. reflexivity. Qed.

Example token_list_sample2 :
  token_list 20
    (lexer_on "Gaussian(height, hwhm=.5) <= 'a b' ... @+ %f*X # c")
  = [(kTokenCname, "Gaussian"); (kTokenOpen, "("); (kTokenLname, "height");
     (kTokenComma, ","); (kTokenLname, "hwhm"); (kTokenAssign, "=");
     (kTokenNumber, ".5"); (kTokenClose, ")"); (kTokenLE, "<=");
     (kTokenString, "'a b'"); (kTokenDots, "..."); (kTokenDataset, "@+");
     (kTokenFuncname, "%f"); (kTokenMult, "*"); (kTokenUletter, "X")].
Proof. reflexivity. Qed.

(** *** C strings *)

(** The loops modelled by [scan_while] stop at the terminator: every
    <ctype.h> test is false on NUL. *)
Lemma ctype_NUL :
  isspace NUL = false /\ isdigit NUL = false /\ isupper NUL = false
  /\ isalpha NUL = false /\ isalnum NUL = false
  /\ forall allow_glob, name_char allow_glob NUL = false.
Proof.
  repeat split. intros allow_glob. unfold name_char. simpl.
  apply andb_false_r.
Qed.

Example S_int_sample :
  S_int 0 = "0" /\ S_int 10 = "10" /\ S_int (-7) = "-7"
  /\ S_int (to_int (2 ^ 31)) = "-2147483648".
Proof. repeat split. Qed.


Lemma char_at_app (pre s : list ascii) (k : nat) :
  char_at (pre ++ s) (List.length pre + k) = char_at s k.
Proof.
  unfold char_at. rewrite app_nth2 by lia. f_equal. lia.
Qed.

Lemma skipn_app_length (pre s : list ascii) :
  skipn (List.length pre) (pre ++ s) = s.
Proof.
  rewrite skipn_app, skipn_all, Nat.sub_diag. reflexivity.
Qed.

Lemma span_app (p : ascii -> bool) (ws : list ascii) (c : ascii)
    (rest : list ascii) :
  forallb p ws = true -> p c = false ->
  span p (ws ++ c :: rest) = List.length ws.
Proof.
  intros Hws Hc. induction ws as [| a ws IH]; simpl in *.
  - now rewrite Hc.
  - apply andb_true_iff in Hws as [Ha Hws]. now rewrite Ha, IH.
Qed.

Lemma scan_while_app (p : ascii -> bool) (pre ws : list ascii) (c : ascii)
    (rest : list ascii) :
  forallb p ws = true -> p c = false ->
  scan_while p (pre ++ ws ++ c :: rest) (List.length pre)
  = List.length pre + List.length ws.
Proof.
  intros Hws Hc. unfold scan_while.
  now rewrite skipn_app_length, span_app.
Qed.

Lemma scan_while_ge (p : ascii -> bool) (input : list ascii) (ptr : nat) :
  ptr <= scan_while p input ptr.
Proof. unfold scan_while. lia. Qed.

Lemma strchr_span_none (c : ascii) (s : list ascii) :
  Forall (fun a => a <> c) s -> strchr_span c s = None.
Proof.
  induction 1 as [| a s Ha _ IH]; simpl.
  - reflexivity.
  - apply Ascii.eqb_neq in Ha. rewrite Ha, IH.
    now destruct (Ascii.eqb a NUL).
Qed.



Lemma to_int_small (z : Z) :
  (- 2 ^ 31 <= z < 2 ^ 31)%Z -> to_int z = z.
Proof.
  intros H. unfold to_int. rewrite Z.mod_small; lia.
Qed.

Lemma TokenType_eqb_eq (a b : TokenType) : TokenType_eqb a b = true <-> a = b.
Proof.
  unfold TokenType_eqb. destruct (TokenType_eq_dec a b); split; congruence.
Qed.

Lemma TokenType_eqb_neq (a b : TokenType) :
  TokenType_eqb a b = false <-> a <> b.
Proof.
  unfold TokenType_eqb. destruct (TokenType_eq_dec a b); split; congruence.
Qed.

Section WithLibc.

Variable double : Type.
Variable strtod : list ascii -> double * nat.
Variable strtol : list ascii -> Z * nat.

Implicit Types (lx : Lexer double) (t : Token double).

(** *** read_token *)

Ltac split_ifs H :=
  repeat match type of H with
         | context [if ?b then _ else _] => destruct b
         | context [match strchr ?i ?p ?c with _ => _ end] =>
             let E := fresh "Echr" in destruct (strchr i p c) eqn:E
         | context [let '(_, _) := ?x in _] => destruct x
         end.

(** A token that is read starts after the white space and ends at the
    new cursor; nothing else of the lexer changes. *)
Lemma read_token_ret (allow_glob : bool) lx lx' :
  read_token strtod strtol allow_glob lx = Ret tt lx' ->
  input_ lx' = input_ lx /\ peeked_ lx' = peeked_ lx
  /\ str (tok_ lx') = scan_while isspace (input_ lx) (cur_ lx)
  /\ cur_ lx' = str (tok_ lx') + length (tok_ lx').
Proof.
  unfold read_token, finish, raise. intros H.
  split_ifs H; try discriminate H;
    injection H as <-; cbn [input_ peeked_ tok_ str length cur_];
    repeat split; unfold scan_while; try lia.
  unfold strchr in Echr.
  destruct (strchr_span _ _); [| discriminate].
  injection Echr as <-. unfold scan_while. lia.
Qed.

(** A throw leaves the cursor and the lookahead flag alone. *)
Lemma read_token_throw (allow_glob : bool) lx lx' (msg : string) :
  read_token strtod strtol allow_glob lx = Throw msg lx' ->
  input_ lx' = input_ lx /\ peeked_ lx' = peeked_ lx /\ cur_ lx' = cur_ lx.
Proof.
  unfold read_token, finish, raise. intros H.
  split_ifs H; try discriminate H; injection H as _ <-; auto.
Qed.

(** A read that throws leaves a state on which it throws again, the
    same, and changes nothing more. *)
Lemma read_token_throw_again (allow_glob : bool) lx lx' (msg : string) :
  read_token strtod strtol allow_glob lx = Throw msg lx' ->
  read_token strtod strtol allow_glob lx' = Throw msg lx'.
Proof.
  intros H. pose proof (read_token_throw _ _ _ _ H) as (Hi & Hp & Hc).
  revert H. unfold read_token, finish, raise.
  rewrite Hi, Hc, Hp. intros H.
  split_ifs H; try discriminate H; injection H as <- <-; reflexivity.
Qed.

(** *** peek and get *)

Lemma set_peeked_same lx : set_peeked (peeked_ lx) lx = lx.
Proof. now destruct lx. Qed.

Lemma peek_token_ret lx lx1 t :
  peek_token strtod strtol lx = Ret t lx1 ->
  peeked_ lx1 = true /\ tok_ lx1 = t /\ input_ lx1 = input_ lx
  /\ (buffered_at_cursor lx -> cur_ lx1 = str t + length t).
Proof.
  unfold peek_token. destruct (peeked_ lx) eqn:Hp; simpl.
  - intros [= <- <-]. simpl. auto.
  - destruct (read_token strtod strtol false lx) as [[] lx' | msg lx'] eqn:Hr;
      simpl; [| discriminate].
    intros [= <- <-]. simpl.
    apply read_token_ret in Hr as (Hi & _ & _ & Hc). auto.
Qed.

(** A second [peek_token] finds the token buffered. *)
Lemma peek_token_again lx lx1 t :
  peek_token strtod strtol lx = Ret t lx1 ->
  peek_token strtod strtol lx1 = Ret t lx1.
Proof.
  intros H. apply peek_token_ret in H as (Hp & Ht & _).
  unfold peek_token. rewrite Hp. simpl. rewrite Ht, <- Hp.
  now rewrite set_peeked_same.
Qed.

(** And a [peek_token] that throws is followed by one that throws the
    same. *)
Lemma peek_token_throw_again lx lx1 (msg : string) :
  peek_token strtod strtol lx = Throw msg lx1 ->
  peek_token strtod strtol lx1 = Throw msg lx1.
Proof.
  unfold peek_token. destruct (peeked_ lx) eqn:Hp; simpl; [discriminate |].
  destruct (read_token strtod strtol false lx) as [[] lx' | msg' lx'] eqn:Hr;
    simpl; [discriminate |].
  intros [= <- <-].
  pose proof (read_token_throw _ _ _ _ Hr) as (_ & Hp' & _).
  rewrite Hp', Hp, (read_token_throw_again _ _ _ _ Hr). reflexivity.
Qed.

(** [get_token] after a [peek_token] hands out the buffered token; it is
    the token [get_token] would have read in place of the peek. *)
Lemma get_token_after_peek lx lx1 t :
  peek_token strtod strtol lx = Ret t lx1 ->
  get_token strtod strtol lx1 = Ret t (set_peeked false lx1)
  /\ get_token strtod strtol lx = Ret t (set_peeked false lx1).
Proof.
  intros H. pose proof (peek_token_ret _ _ _ H) as (Hp & Ht & _).
  split.
  - unfold get_token. rewrite Hp. simpl. now rewrite Ht.
  - revert H. unfold peek_token, get_token.
    destruct (peeked_ lx); simpl.
    + intros [= <- <-]. reflexivity.
    + destruct (read_token strtod strtol false lx) as [[] lx' | msg lx'];
        simpl; [| discriminate].
      intros [= <- <-]. reflexivity.
Qed.

(** *** The states of a lexer *)

Lemma good_unbuffered (input : list ascii) lx :
  input_ lx = input -> peeked_ lx = false -> good input lx.
Proof.
  intros Hi Hp. split; [exact Hi |].
  unfold buffered_at_cursor. congruence.
Qed.

Lemma state_of_bind {A B : Type} (m : outcome double A)
    (k : A -> Lexer double -> outcome double B) (P : Lexer double -> Prop) :
  (forall msg lx', m = Throw msg lx' -> P lx') ->
  (forall a lx', m = Ret a lx' -> P (state_of (k a lx'))) ->
  P (state_of (bind double m k)).
Proof.
  intros Hthrow Hret. destruct m as [a lx' | msg lx']; simpl.
  - now apply Hret.
  - now apply (Hthrow msg).
Qed.

Lemma read_token_state (allow_glob : bool) lx :
  input_ (state_of (read_token strtod strtol allow_glob lx)) = input_ lx
  /\ peeked_ (state_of (read_token strtod strtol allow_glob lx)) = peeked_ lx.
Proof.
  destruct (read_token strtod strtol allow_glob lx) as [[] lx' | msg lx'] eqn:H;
    simpl.
  - apply read_token_ret in H. tauto.
  - apply read_token_throw in H. tauto.
Qed.

Lemma get_token_state lx :
  input_ (state_of (get_token strtod strtol lx)) = input_ lx
  /\ peeked_ (state_of (get_token strtod strtol lx)) = false.
Proof.
  unfold get_token. destruct (peeked_ lx) eqn:Hp; simpl; [auto |].
  pose proof (read_token_state false lx) as [Hi Hq].
  destruct (read_token strtod strtol false lx) as [[] lx' | msg lx'];
    simpl in *; split; congruence.
Qed.

Lemma get_token_good (input : list ascii) lx :
  input_ lx = input -> good input (state_of (get_token strtod strtol lx)).
Proof.
  intros Hi. destruct (get_token_state lx) as [H1 H2].
  apply good_unbuffered; congruence.
Qed.

Lemma peek_token_good (input : list ascii) lx :
  good input lx -> good input (state_of (peek_token strtod strtol lx)).
Proof.
  intros [Hi Hb].
  destruct (peek_token strtod strtol lx) as [t lx1 | msg lx1] eqn:H; simpl.
  - apply peek_token_ret in H as (Hp & Ht & Hi1 & Hc).
    split; [congruence |]. intros _. rewrite Ht. auto.
  - revert H. unfold peek_token. destruct (peeked_ lx) eqn:Hp; simpl;
      [discriminate |].
    pose proof (read_token_state false lx) as [Hi1 Hq].
    destruct (read_token strtod strtol false lx) as [[] lx' | msg' lx'];
      simpl in *; [discriminate |].
    intros [= _ <-]. apply good_unbuffered; congruence.
Qed.

(** A function that peeks (once or twice) and then throws a syntax error
    or gets the token. *)
Lemma expect_good {A : Type} (input : list ascii) lx
    (k : Token double -> Lexer double -> outcome double A) :
  good input lx ->
  (forall t lx1, good input lx1 -> good input (state_of (k t lx1))) ->
  good input (state_of (bind double (peek_token strtod strtol lx) k)).
Proof.
  intros Hg Hk. pose proof (peek_token_good input lx Hg) as Hp.
  apply state_of_bind.
  - intros msg lx' E. now rewrite E in Hp.
  - intros t lx' E. apply Hk. now rewrite E in Hp.
Qed.

Lemma get_wide_token_good (input : list ascii) (p : ascii -> bool)
    (ty : TokenType) lx :
  input_ lx = input ->
  good input (state_of (get_wide_token double strtod strtol p ty lx)).
Proof.
  intros Hi. unfold get_wide_token.
  pose proof (get_token_state lx) as [H1 H2].
  apply state_of_bind.
  - intros msg lx' E. rewrite E in *. simpl in *.
    apply good_unbuffered; congruence.
  - intros t lx' E. rewrite E in *. simpl in *.
    destruct (TokenType_eqb (type t) kTokenString
              || TokenType_eqb (type t) kTokenNop); simpl;
      apply good_unbuffered; simpl; congruence.
Qed.

Lemma after_good (input : list ascii) (c : call double) lx :
  good input lx -> good input (after strtod strtol c lx).
Proof.
  intros Hg. pose proof Hg as [Hi Hb].
  destruct c; simpl.
  - now apply get_token_good.
  - now apply peek_token_good.
  - now apply good_unbuffered.
  - unfold get_glob_token.
    set (lx0 := if peeked_ lx then _ else lx).
    assert (H0 : input_ lx0 = input /\ peeked_ lx0 = false).
    { subst lx0. destruct (peeked_ lx) eqn:Hp; simpl; auto. }
    pose proof (read_token_state true lx0) as [H1 H2].
    destruct (read_token strtod strtol true lx0) as [[] lx' | msg lx'];
      simpl in *; apply good_unbuffered; intuition congruence.
  - now apply get_wide_token_good.
  - now apply get_wide_token_good.
  - now apply good_unbuffered.
  - unfold get_expected_token_raw.
    apply expect_good; trivial. intros t lx1 H1.
    apply expect_good; trivial. intros t' lx2 [Hi2 Hb2].
    destruct (negb _); [split; assumption | now apply get_token_good].
  - unfold get_expected_token.
    apply expect_good; trivial. intros t lx1 [Hi1 Hb1].
    destruct (negb _); [split; assumption | now apply get_token_good].
  - unfold get_expected_token_tt2.
    apply expect_good; trivial. intros t lx1 [Hi1 Hb1].
    destruct (_ && _); [split; assumption | now apply get_token_good].
  - unfold get_expected_token_tt_raw.
    apply expect_good; trivial. intros t lx1 H1.
    apply expect_good; trivial. intros t' lx2 [Hi2 Hb2].
    destruct (_ && _); [split; assumption | now apply get_token_good].
  - unfold get_expected_token_raw2.
    apply expect_good; trivial. intros t lx1 H1.
    apply expect_good; trivial. intros t' lx2 [Hi2 Hb2].
    destruct (_ && _); [split; assumption | now apply get_token_good].
  - unfold get_token_if.
    apply expect_good; trivial. intros t lx1 [Hi1 Hb1].
    destruct (TokenType_eqb _ _); [now apply get_token_good | split; assumption].
Qed.

(** Every state of a lexer keeps its input, and keeps the cursor at the
    end of the buffered token. *)
Lemma reachable_good (input : list ascii) lx :
  reachable strtod strtol input lx -> good input lx.
Proof.
  induction 1 as [tok0 | c lx _ IH].
  - now apply good_unbuffered.
  - now apply after_good.
Qed.

(** C7: on every state of a lexer, a [peek_token] that returns a token
    leaves a state on which a second [peek_token] returns the same token
    and changes nothing; the [get_token] that follows returns that token
    again, as a [get_token] in place of the peeks would have, and leaves
    the cursor immediately after the token with nothing buffered. *)
Theorem peek_peek_get (input : list ascii) lx lx1 t :
  reachable strtod strtol input lx ->
  peek_token strtod strtol lx = Ret t lx1 ->
  peek_token strtod strtol lx1 = Ret t lx1
  /\ exists lx2,
       get_token strtod strtol lx1 = Ret t lx2
       /\ get_token strtod strtol lx = Ret t lx2
       /\ cur_ lx2 = str t + length t
       /\ peeked_ lx2 = false
       /\ input_ lx2 = input
       /\ tok_ lx2 = t.
Proof.
  intros Hreach Hpeek.
  pose proof (reachable_good input lx Hreach) as [Hi Hb].
  pose proof (peek_token_ret _ _ _ Hpeek) as (Hp & Ht & Hi1 & Hc).
  pose proof (get_token_after_peek _ _ _ Hpeek) as [Hg1 Hg].
  split; [exact (peek_token_again _ _ _ Hpeek) |].
  exists (set_peeked false lx1). simpl.
  repeat split; trivial; try congruence. now apply Hc.
Qed.

(** *** The expected-token protocol *)

Lemma append_assoc (a b c : string) :
  ((a ++ b) ++ c = a ++ (b ++ c))%string.
Proof. induction a as [| x a IH]; simpl; [reflexivity | now rewrite IH]. Qed.

Lemma unless_nop_nop (msg rest : string) :
  unless_nop kTokenNop msg rest = msg.
Proof. reflexivity. Qed.

Lemma unless_nop_other (p : TokenType) (msg rest : string) :
  p <> kTokenNop -> unless_nop p msg rest = (msg ++ rest)%string.
Proof.
  intros H. unfold unless_nop.
  apply TokenType_eqb_neq in H. now rewrite H.
Qed.

(** After a successful peek, the variants that look at the kind only
    peek once, the others a second time, to the same effect. *)
Lemma peek_bind {A : Type} lx lx1 t
    (k : Token double -> Lexer double -> outcome double A) :
  peek_token strtod strtol lx = Ret t lx1 ->
  bind double (peek_token strtod strtol lx) k = k t lx1.
Proof. intros H. now rewrite H. Qed.

Lemma peek_bind2 {A : Type} lx lx1 t
    (k : Token double -> Token double -> Lexer double -> outcome double A) :
  peek_token strtod strtol lx = Ret t lx1 ->
  bind double (peek_token strtod strtol lx)
    (fun t0 lx0 => bind double (peek_token strtod strtol lx0) (k t0))
  = k t t lx1.
Proof.
  intros H. rewrite H. simpl.
  now rewrite (peek_token_again _ _ _ H).
Qed.

Ltac same_message :=
  unfold throw_syntax_error; f_equal; simpl;
  repeat (rewrite append_assoc; simpl); reflexivity.

(** C3 (amended): when the next token is not the nil token, a
    mismatching expected-token call throws a syntax error whose message
    is ["at <offset>: expected <X> instead of <Y>"] when fewer than 10
    characters precede the cursor, and
    ["at <offset>, near `<context>': expected <X> instead of <Y>"], with
    the 10 characters before the cursor as context, otherwise.  The
    offset is the cursor after the peeked token. *)
Theorem expected_token_error lx lx1 t :
  peek_token strtod strtol lx = Ret t lx1 ->
  type t <> kTokenNop ->
  let pos := to_int (Z.of_nat (cur_ lx1)) in
  let loc :=
    if (10 <=? pos)%Z
    then (S_int pos ++ ", near `"
            ++ string_at (input_ lx1) (cur_ lx1 - 10) 10 ++ "'")%string
    else S_int pos in
  let s := as_string (input_ lx1) t in
  let p := tokentype2str (type t) in
  (forall ty, type t <> ty ->
     get_expected_token strtod strtol ty lx
     = Throw ("at " ++ loc ++ ": expected " ++ tokentype2str ty
                ++ " instead of " ++ p) lx1)
  /\ (forall raw, s <> raw ->
        get_expected_token_raw strtod strtol raw lx
        = Throw ("at " ++ loc ++ ": expected `" ++ raw
                   ++ "' instead of `" ++ s ++ "'") lx1)
  /\ (forall tt1 tt2, type t <> tt1 -> type t <> tt2 ->
        get_expected_token_tt2 strtod strtol tt1 tt2 lx
        = Throw ("at " ++ loc ++ ": expected " ++ tokentype2str tt1 ++ " or "
                   ++ tokentype2str tt2 ++ " instead of " ++ p) lx1)
  /\ (forall ty raw, type t <> ty -> s <> raw ->
        get_expected_token_tt_raw strtod strtol ty raw lx
        = Throw ("at " ++ loc ++ ": expected " ++ tokentype2str ty ++ " or `"
                   ++ raw ++ "' instead of `" ++ s ++ "'") lx1)
  /\ (forall raw1 raw2, s <> raw1 -> s <> raw2 ->
        get_expected_token_raw2 strtod strtol raw1 raw2 lx
        = Throw ("at " ++ loc ++ ": expected `" ++ raw1 ++ "' or `" ++ raw2
                   ++ "' instead of `" ++ s ++ "'") lx1)
  /\ ((Z.of_nat (cur_ lx1) < 2 ^ 31)%Z -> pos = Z.of_nat (cur_ lx1)).
Proof.
  intros Hpeek Hnop pos loc s p.
  repeat apply conj.
  - intros ty Hty. unfold get_expected_token.
    rewrite (peek_bind _ _ _ _ Hpeek).
    apply TokenType_eqb_neq in Hty. rewrite Hty. simpl negb. cbv iota.
    rewrite unless_nop_other by assumption.
    same_message.
  - intros raw Hraw. unfold get_expected_token_raw.
    rewrite (peek_bind2 _ _ _ _ Hpeek). fold s.
    apply String.eqb_neq in Hraw. rewrite Hraw. simpl negb. cbv iota.
    rewrite unless_nop_other by assumption.
    same_message.
  - intros tt1 tt2 H1 H2. unfold get_expected_token_tt2.
    rewrite (peek_bind _ _ _ _ Hpeek).
    apply TokenType_eqb_neq in H1, H2. rewrite H1, H2. simpl andb. cbv iota.
    rewrite unless_nop_other by assumption.
    same_message.
  - intros ty raw Hty Hraw. unfold get_expected_token_tt_raw.
    rewrite (peek_bind2 _ _ _ _ Hpeek). fold s.
    apply TokenType_eqb_neq in Hty. apply String.eqb_neq in Hraw.
    rewrite Hty, Hraw. simpl andb. cbv iota.
    rewrite unless_nop_other by assumption.
    same_message.
  - intros raw1 raw2 H1 H2. unfold get_expected_token_raw2.
    rewrite (peek_bind2 _ _ _ _ Hpeek). fold s.
    apply String.eqb_neq in H1, H2. rewrite H1, H2. simpl andb. cbv iota.
    rewrite unless_nop_other by assumption.
    same_message.
  - intros Hsmall. apply to_int_small. lia.
Qed.

(** C8: when the next token is the nil token (end of input or a
    comment), a mismatching expected-token call throws a syntax error
    whose message ends with what was expected: there is no "instead of"
    part. *)
Theorem expected_token_error_at_end lx lx1 t :
  peek_token strtod strtol lx = Ret t lx1 ->
  type t = kTokenNop ->
  let pos := to_int (Z.of_nat (cur_ lx1)) in
  let loc :=
    if (10 <=? pos)%Z
    then (S_int pos ++ ", near `"
            ++ string_at (input_ lx1) (cur_ lx1 - 10) 10 ++ "'")%string
    else S_int pos in
  let s := as_string (input_ lx1) t in
  (forall ty, ty <> kTokenNop ->
     get_expected_token strtod strtol ty lx
     = Throw ("at " ++ loc ++ ": expected " ++ tokentype2str ty) lx1)
  /\ (forall raw, s <> raw ->
        get_expected_token_raw strtod strtol raw lx
        = Throw ("at " ++ loc ++ ": expected `" ++ raw ++ "'") lx1)
  /\ (forall tt1 tt2, tt1 <> kTokenNop -> tt2 <> kTokenNop ->
        get_expected_token_tt2 strtod strtol tt1 tt2 lx
        = Throw ("at " ++ loc ++ ": expected " ++ tokentype2str tt1 ++ " or "
                   ++ tokentype2str tt2) lx1)
  /\ (forall ty raw, ty <> kTokenNop -> s <> raw ->
        get_expected_token_tt_raw strtod strtol ty raw lx
        = Throw ("at " ++ loc ++ ": expected " ++ tokentype2str ty ++ " or `"
                   ++ raw ++ "'") lx1)
  /\ (forall raw1 raw2, s <> raw1 -> s <> raw2 ->
        get_expected_token_raw2 strtod strtol raw1 raw2 lx
        = Throw ("at " ++ loc ++ ": expected `" ++ raw1 ++ "' or `" ++ raw2
                   ++ "'") lx1).
Proof.
  intros Hpeek Hnop pos loc s.
  assert (Hne : forall ty, ty <> kTokenNop -> TokenType_eqb (type t) ty = false).
  { intros ty Hty. apply TokenType_eqb_neq. congruence. }
  repeat apply conj.
  - intros ty Hty. unfold get_expected_token.
    rewrite (peek_bind _ _ _ _ Hpeek).
    rewrite (Hne ty Hty), Hnop, unless_nop_nop. simpl negb. cbv iota.
    same_message.
  - intros raw Hraw. unfold get_expected_token_raw.
    rewrite (peek_bind2 _ _ _ _ Hpeek). fold s.
    apply String.eqb_neq in Hraw.
    rewrite Hraw, Hnop, unless_nop_nop. simpl negb. cbv iota.
    same_message.
  - intros tt1 tt2 H1 H2. unfold get_expected_token_tt2.
    rewrite (peek_bind _ _ _ _ Hpeek).
    rewrite (Hne tt1 H1), (Hne tt2 H2), Hnop, unless_nop_nop.
    simpl andb. cbv iota.
    same_message.
  - intros ty raw Hty Hraw. unfold get_expected_token_tt_raw.
    rewrite (peek_bind2 _ _ _ _ Hpeek). fold s.
    apply String.eqb_neq in Hraw.
    rewrite (Hne ty Hty), Hraw, Hnop, unless_nop_nop. simpl andb. cbv iota.
    same_message.
  - intros raw1 raw2 H1 H2. unfold get_expected_token_raw2.
    rewrite (peek_bind2 _ _ _ _ Hpeek). fold s.
    apply String.eqb_neq in H1, H2.
    rewrite H1, H2, Hnop, unless_nop_nop. simpl andb. cbv iota.
    same_message.
Qed.

(** *** Lexical errors *)

(** C6 (amended): a quote with no second quote after it makes
    [read_token] throw ["unfinished string"]; a [$] followed by a
    character that is neither a letter nor [_] nor [*] makes it throw
    ["unexpected character after '$'"], a fixed message: it names the
    [$], not the character found.  [get_token] and [peek_token], when
    they have to read, throw the same. *)
Theorem read_token_lexical_errors (allow_glob : bool) lx :
  let input := input_ lx in
  let start := scan_while isspace input (cur_ lx) in
  (char_at input start = "'"%char ->
   Forall (fun c => c <> "'"%char) (skipn (start + 1) input) ->
   read_token strtod strtol allow_glob lx
   = Throw "unfinished string"
       (mkLexer input (cur_ lx) (peeked_ lx)
          (mkToken start kTokenString (length (tok_ lx)) (value (tok_ lx)))))
  /\ (char_at input start = "$"%char ->
      isalpha (char_at input (start + 1)) = false ->
      char_at input (start + 1) <> "_"%char ->
      char_at input (start + 1) <> "*"%char ->
      read_token strtod strtol allow_glob lx
      = Throw "unexpected character after '$'"
          (mkLexer input (cur_ lx) (peeked_ lx)
             (mkToken start (type (tok_ lx)) (length (tok_ lx))
                (value (tok_ lx)))))
  /\ (forall msg lx',
        peeked_ lx = false ->
        read_token strtod strtol false lx = Throw msg lx' ->
        get_token strtod strtol lx = Throw msg lx'
        /\ peek_token strtod strtol lx = Throw msg lx').
Proof.
  intros input start. repeat apply conj.
  - intros Hc Hq. unfold read_token. fold input. fold start.
    rewrite Hc. simpl (Ascii.eqb _ _). cbv iota. simpl orb. cbv iota.
    unfold strchr. rewrite (strchr_span_none _ _ Hq). reflexivity.
  - intros Hc Ha Hu Hs. unfold read_token. fold input. fold start.
    rewrite Hc. simpl (Ascii.eqb "$" _). cbv iota. simpl orb. cbv iota.
    apply Ascii.eqb_neq in Hu, Hs. rewrite Ha, Hu, Hs. reflexivity.
  - intros msg lx' Hp Hr. unfold get_token, peek_token.
    rewrite Hp, Hr. simpl. auto.
Qed.

(** *** Operators *)

Lemma char_at_after (pre ws s : list ascii) (k : nat) :
  char_at (pre ++ ws ++ s) (List.length pre + List.length ws + k)
  = char_at s k.
Proof.
  rewrite <- Nat.add_assoc, char_at_app, char_at_app. reflexivity.
Qed.

Lemma char_at_after0 (pre ws s : list ascii) :
  char_at (pre ++ ws ++ s) (List.length pre + List.length ws) = char_at s 0.
Proof.
  rewrite <- (char_at_after pre ws s 0). f_equal. lia.
Qed.

Lemma finish_length lx (start n : nat) (ty : TokenType)
    (v : TokenValue double) :
  finish double lx start ty v (start + n)
  = Ret tt (mkLexer (input_ lx) (start + n) (peeked_ lx)
              (mkToken start ty n v)).
Proof.
  unfold finish. do 3 f_equal. lia.
Qed.

Ltac read_operator Hws :=
  unfold read_token; cbn [input_ cur_ tok_ peeked_];
  rewrite scan_while_app by (exact Hws || reflexivity);
  rewrite ?char_at_after, ?char_at_after0;
  cbn [char_at nth]; simpl (Ascii.eqb _ _); cbv iota; simpl orb; cbv iota.

(** C5 (amended): white space, then a two-character operator, makes
    [read_token] return one token of the operator's kind, two characters
    long (three for [...]); [<>] gives the kind of [!=].  With the second
    character taken out, it returns the single-character token, one
    character long, provided that the character which now follows the
    first does not itself extend it into a longer token. *)
Theorem read_token_two_char_operators (allow_glob : bool) (c1 c2 : ascii)
    (k2 k1 : TokenType) (pre ws rest : list ascii) (pk : bool)
    (tok : Token double) :
  In (c1, c2, k2, k1) two_char_operators ->
  forallb isspace ws = true ->
  let start := List.length pre + List.length ws in
  let len2 :=
    if Ascii.eqb c1 "." && Ascii.eqb (hd NUL rest) "." then 3 else 2 in
  read_token strtod strtol allow_glob
    (mkLexer (pre ++ ws ++ c1 :: c2 :: rest) (List.length pre) pk tok)
  = Ret tt (mkLexer (pre ++ ws ++ c1 :: c2 :: rest) (start + len2) pk
              (mkToken start k2 len2 (value tok)))
  /\ (extends c1 (hd NUL rest) = false ->
      read_token strtod strtol allow_glob
        (mkLexer (pre ++ ws ++ c1 :: rest) (List.length pre) pk tok)
      = Ret tt (mkLexer (pre ++ ws ++ c1 :: rest) (start + 1) pk
                  (mkToken start k1 1 (value tok))))
  /\ read_token strtod strtol allow_glob
       (mkLexer (pre ++ ws ++ "<" :: ">" :: rest)%char (List.length pre) pk tok)
     = Ret tt (mkLexer (pre ++ ws ++ "<" :: ">" :: rest)%char (start + 2) pk
                 (mkToken start kTokenNE 2 (value tok))).
Proof.
  intros Hin Hws start len2. subst len2.
  repeat apply conj.
  - simpl in Hin.
    repeat (destruct Hin as [[= <- <- <- <-] | Hin]); try contradiction;
      read_operator Hws; try apply finish_length.
    destruct rest as [| r rest]; simpl hd; simpl (Ascii.eqb _ _);
      cbv iota; [apply finish_length |].
    destruct (Ascii.eqb r "."); apply finish_length.
  - intros Hext. simpl in Hin.
    repeat (destruct Hin as [[= <- <- <- <-] | Hin]); try contradiction;
      read_operator Hws;
      (destruct rest as [| r rest]; cbn [hd nth] in *;
       [ simpl (Ascii.eqb _ _); cbv iota; apply finish_length
       | unfold extends in Hext; simpl (Ascii.eqb _ _) in Hext;
         cbv iota in Hext;
         repeat match type of Hext with
                | (_ || _) = false =>
                    apply orb_false_iff in Hext as [Hext ?]
                end;
         repeat match goal with
                | H : ?b = false |- context [?b] => rewrite H
                end;
         apply finish_length ]).
  - read_operator Hws. apply finish_length.
Qed.

(** *** get_string *)





End WithLibc.

(** *** Runs on concrete inputs *)

Lemma peek_peek_get_witness :
  reachable decimal_strtod decimal_strtol (list_ascii_of_string "x + 1")
    (after decimal_strtod decimal_strtol (CallGetToken literal)
       (lexer_on "x + 1"))
  /\ peek_token decimal_strtod decimal_strtol
       (after decimal_strtod decimal_strtol (CallGetToken literal)
          (lexer_on "x + 1"))
     = Ret (mkToken 2 kTokenPlus 1 ValueUnset)
         (mkLexer (list_ascii_of_string "x + 1") 3 true
            (mkToken 2 kTokenPlus 1 ValueUnset))
  /\ peek_token decimal_strtod decimal_strtol
       (mkLexer (list_ascii_of_string "x + 1") 3 true
          (mkToken 2 kTokenPlus 1 ValueUnset))
     = Ret (mkToken 2 kTokenPlus 1 ValueUnset)
         (mkLexer (list_ascii_of_string "x + 1") 3 true
            (mkToken 2 kTokenPlus 1 ValueUnset))
  /\ exists lx2,
       get_token decimal_strtod decimal_strtol
         (mkLexer (list_ascii_of_string "x + 1") 3 true
            (mkToken 2 kTokenPlus 1 ValueUnset))
       = Ret (mkToken 2 kTokenPlus 1 ValueUnset) lx2
       /\ get_token decimal_strtod decimal_strtol
            (after decimal_strtod decimal_strtol (CallGetToken literal)
               (lexer_on "x + 1"))
          = Ret (mkToken 2 kTokenPlus 1 ValueUnset) lx2
       /\ cur_ lx2 = 2 + 1
       /\ peeked_ lx2 = false
       /\ input_ lx2 = list_ascii_of_string "x + 1"
       /\ tok_ lx2 = mkToken 2 kTokenPlus 1 ValueUnset.
Proof.
  assert (Hreach :
    reachable decimal_strtod decimal_strtol (list_ascii_of_string "x + 1")
      (after decimal_strtod decimal_strtol (CallGetToken literal)
         (lexer_on "x + 1"))).
  { apply reachable_call. apply reachable_new. }
  assert (Hpeek :
    peek_token decimal_strtod decimal_strtol
      (after decimal_strtod decimal_strtol (CallGetToken literal)
         (lexer_on "x + 1"))
    = Ret (mkToken 2 kTokenPlus 1 ValueUnset)
        (mkLexer (list_ascii_of_string "x + 1") 3 true
           (mkToken 2 kTokenPlus 1 ValueUnset))) by reflexivity.
  split; [exact Hreach |]. split; [exact Hpeek |].
  exact (peek_peek_get literal decimal_strtod decimal_strtol
           _ _ _ _ Hreach Hpeek).
Defined.

Lemma expected_token_error_witness :
  peek_token decimal_strtod decimal_strtol (lexer_on "lower_case x")
  = Ret (mkToken 0 kTokenLname 10 ValueUnset)
      (mkLexer (list_ascii_of_string "lower_case x") 10 true
         (mkToken 0 kTokenLname 10 ValueUnset))
  /\ kTokenLname <> kTokenNop
  /\ get_expected_token decimal_strtod decimal_strtol kTokenNumber
       (lexer_on "lower_case x")
     = Throw
         "at 10, near `lower_case': expected number instead of lower_case_name"
         (mkLexer (list_ascii_of_string "lower_case x") 10 true
            (mkToken 0 kTokenLname 10 ValueUnset)).
Proof.
  assert (Hpeek :
    peek_token decimal_strtod decimal_strtol (lexer_on "lower_case x")
    = Ret (mkToken 0 kTokenLname 10 ValueUnset)
        (mkLexer (list_ascii_of_string "lower_case x") 10 true
           (mkToken 0 kTokenLname 10 ValueUnset))) by reflexivity.
  assert (Hnop : kTokenLname <> kTokenNop) by discriminate.
  split; [exact Hpeek |]. split; [exact Hnop |].
  assert (Hne : kTokenLname <> kTokenNumber) by discriminate.
  exact (proj1 (expected_token_error literal decimal_strtod decimal_strtol
                  _ _ _ Hpeek Hnop) kTokenNumber Hne).
Defined.

(** C3, as stated, fails: one character precedes the cursor, and the
    message has no left context. *)
Lemma expected_token_error_no_context :
  get_expected_token decimal_strtod decimal_strtol kTokenNumber (lexer_on "a")
  = Throw "at 1: expected number instead of lower_case_name"
      (mkLexer (list_ascii_of_string "a") 1 true
         (mkToken 0 kTokenLname 1 ValueUnset))
  /\ contains "near" "at 1: expected number instead of lower_case_name"
     = false.
Proof. split; reflexivity. Qed.

Lemma expected_token_error_at_end_witness :
  peek_token decimal_strtod decimal_strtol (lexer_on "  # comment")
  = Ret (mkToken 2 kTokenNop 0 ValueUnset)
      (mkLexer (list_ascii_of_string "  # comment") 2 true
         (mkToken 2 kTokenNop 0 ValueUnset))
  /\ get_expected_token decimal_strtod decimal_strtol kTokenNumber
       (lexer_on "  # comment")
     = Throw "at 2: expected number"
         (mkLexer (list_ascii_of_string "  # comment") 2 true
            (mkToken 2 kTokenNop 0 ValueUnset))
  /\ get_expected_token_raw decimal_strtod decimal_strtol "in"
       (lexer_on "  # comment")
     = Throw "at 2: expected `in'"
         (mkLexer (list_ascii_of_string "  # comment") 2 true
            (mkToken 2 kTokenNop 0 ValueUnset)).
Proof.
  assert (Hpeek :
    peek_token decimal_strtod decimal_strtol (lexer_on "  # comment")
    = Ret (mkToken 2 kTokenNop 0 ValueUnset)
        (mkLexer (list_ascii_of_string "  # comment") 2 true
           (mkToken 2 kTokenNop 0 ValueUnset))) by reflexivity.
  split; [exact Hpeek |].
  destruct (expected_token_error_at_end literal decimal_strtod decimal_strtol
              _ _ _ Hpeek eq_refl) as (H1 & H2 & _).
  split.
  - apply (H1 kTokenNumber). discriminate.
  - apply (H2 "in"). discriminate.
Defined.

Lemma read_token_two_char_operators_witness :
  In ("<"%char, "="%char, kTokenLE, kTokenLT) two_char_operators
  /\ forallb isspace [" "%char] = true
  /\ extends "<" " " = false
  /\ read_token decimal_strtod decimal_strtol false (lexer_on " <= 1")
     = Ret tt (mkLexer (list_ascii_of_string " <= 1") 3 false
                 (mkToken 1 kTokenLE 2 ValueUnset))
  /\ read_token decimal_strtod decimal_strtol false (lexer_on " < 1")
     = Ret tt (mkLexer (list_ascii_of_string " < 1") 2 false
                 (mkToken 1 kTokenLT 1 ValueUnset)).
Proof.
  assert (Hin : In ("<"%char, "="%char, kTokenLE, kTokenLT) two_char_operators)
    by (simpl; auto).
  assert (Hws : forallb isspace [" "%char] = true) by reflexivity.
  assert (Hext : extends "<" " " = false) by reflexivity.
  split; [exact Hin |]. split; [exact Hws |]. split; [exact Hext |].
  destruct (read_token_two_char_operators literal decimal_strtod
              decimal_strtol false "<" "=" kTokenLE kTokenLT
              [] [" "%char] (list_ascii_of_string " 1") false tok0 Hin Hws)
    as (H2 & H1 & _).
  split; [exact H2 | exact (H1 Hext)].
Defined.

(** C5, as stated, fails: [<==] begins with the operator [<=]; with the
    second character taken out it is [<=], which is read as [<=] again,
    two characters long, and not as [<]. *)
Lemma read_token_no_fallback :
  read_token decimal_strtod decimal_strtol false (lexer_on "<==")
  = Ret tt (mkLexer (list_ascii_of_string "<==") 2 false
              (mkToken 0 kTokenLE 2 ValueUnset))
  /\ read_token decimal_strtod decimal_strtol false (lexer_on "<=")
     = Ret tt (mkLexer (list_ascii_of_string "<=") 2 false
                 (mkToken 0 kTokenLE 2 ValueUnset))
  /\ kTokenLE <> kTokenLT.
Proof. repeat split; try reflexivity. discriminate. Qed.

Lemma read_token_lexical_errors_witness :
  read_token decimal_strtod decimal_strtol false (lexer_on "'abc")
  = Throw "unfinished string"
      (mkLexer (list_ascii_of_string "'abc") 0 false
         (mkToken 0 kTokenString 0 ValueUnset))
  /\ read_token decimal_strtod decimal_strtol false (lexer_on "$ ")
     = Throw "unexpected character after '$'"
         (mkLexer (list_ascii_of_string "$ ") 0 false
            (mkToken 0 kTokenNop 0 ValueUnset)).
Proof.
  split.
  - apply (proj1 (read_token_lexical_errors literal decimal_strtod
                    decimal_strtol false (lexer_on "'abc"))).
    + reflexivity.
    + repeat constructor; discriminate.
  - apply (proj1 (proj2 (read_token_lexical_errors literal decimal_strtod
                           decimal_strtol false (lexer_on "$ ")))).
    + reflexivity.
    + reflexivity.
    + discriminate.
    + discriminate.
Defined.

(** C6, as stated, fails in its second part: the message for [$1] does
    not name the [1]; it is the message for [$ ] and for every other
    character. *)
Lemma read_token_dollar_message :
  read_token decimal_strtod decimal_strtol false (lexer_on "$1")
  = Throw "unexpected character after '$'"
      (mkLexer (list_ascii_of_string "$1") 0 false
         (mkToken 0 kTokenNop 0 ValueUnset))
  /\ contains "1" "unexpected character after '$'" = false
  /\ read_token decimal_strtod decimal_strtol false (lexer_on "$ ")
     = Throw "unexpected character after '$'"
         (mkLexer (list_ascii_of_string "$ ") 0 false
            (mkToken 0 kTokenNop 0 ValueUnset)).
Proof. repeat split. Qed.


Example get_string_sample :
  get_string (list_ascii_of_string "'a b' x")
    (mkToken (double := literal) 0 kTokenString 5 ValueUnset) = "a b"
  /\ get_string (list_ascii_of_string "$abc+1")
       (mkToken (double := literal) 0 kTokenVarname 4 ValueUnset) = "abc"
  /\ get_string (list_ascii_of_string "%f(x)")
       (mkToken (double := literal) 0 kTokenFuncname 2 ValueUnset) = "f"
  /\ get_string (list_ascii_of_string "Gaussian(x)")
       (mkToken (double := literal) 0 kTokenCname 8 ValueUnset) = "Gaussian".
Proof. repeat split. Qed.

End LexFacts.

(** ** Ordering the files of the command line *)

Module AppFacts.
Import App.

Lemma option_ascii_dec (a b : option ascii) : {a = b} + {a <> b}.
Proof. decide equality. apply ascii_dec. Qed.

Lemma get_none_iff (s : string) (n : nat) :
  String.get n s = None <-> String.length s <= n.
Proof.
  revert n. induction s as [| a s IH]; intros n; simpl.
  - split; [lia | reflexivity].
  - destruct n as [| n]; simpl.
    + split; [discriminate | lia].
    + rewrite IH. lia.
Qed.

(** The inner loop finds no difference at [n] exactly when every later
    string has, at [n], the character of the first. *)
Lemma differs_at_false (first : string) (n : nat) (rest : list string) :
  n < String.length first ->
  (differs_at first n rest = false
   <-> forall s, In s rest -> String.get n s = String.get n first).
Proof.
  intros Hn.
  assert (Hf : exists c, String.get n first = Some c).
  { destruct (String.get n first) as [c |] eqn:E; [now exists c |].
    apply get_none_iff in E. lia. }
  destruct Hf as [c Hc]. rewrite Hc.
  induction rest as [| i rest IH]; simpl.
  - split; [intros _ s [] | reflexivity].
  - unfold char_of at 1 2. rewrite Hc.
    destruct (String.get n i) as [d |] eqn:Ei.
    + assert (Hlen : (String.length i <=? n)%nat = false).
      { apply Nat.leb_gt. destruct (le_lt_dec (String.length i) n) as [H | H];
          [| exact H].
        apply get_none_iff in H. congruence. }
      rewrite Hlen. simpl orb.
      destruct (Ascii.eqb d c) eqn:Edc; simpl negb; cbv iota.
      * apply Ascii.eqb_eq in Edc. subst d. rewrite IH. split.
        -- intros H s [<- | Hs]; [exact Ei | now apply H].
        -- intros H s Hs. apply H. now right.
      * apply Ascii.eqb_neq in Edc. split; [discriminate |].
        intros H. specialize (H i (or_introl eq_refl)). congruence.
    + assert (Hlen : (String.length i <=? n)%nat = true).
      { apply Nat.leb_le. now apply get_none_iff. }
      rewrite Hlen. simpl. split; [discriminate |].
      intros H. specialize (H i (or_introl eq_refl)). congruence.
Qed.

Lemma prefix_loop_spec (steps n : nat) (first : string) (rest : list string) :
  steps + n = String.length first ->
  (forall k s, k < n -> In s rest -> String.get k s = String.get k first) ->
  let r := prefix_loop steps n first rest in
  n <= r <= String.length first
  /\ (forall k s, k < r -> In s rest -> String.get k s = String.get k first)
  /\ (r < String.length first ->
      exists s, In s rest /\ String.get r s <> String.get r first).
Proof.
  revert n. induction steps as [| steps IH]; intros n Hlen Hpre; simpl.
  - repeat split; try lia; trivial.
  - destruct (differs_at first n rest) eqn:Ed.
    + repeat split; try lia; trivial.
      intros _.
      assert (Hnot : ~ forall s, In s rest ->
                        String.get n s = String.get n first).
      { intros H. apply (differs_at_false first n rest) in H; [congruence | lia]. }
      clear - Hnot.
      induction rest as [| i rest IHr].
      * elim Hnot. intros s [].
      * destruct (option_ascii_dec (String.get n i) (String.get n first))
          as [E | E].
        -- destruct IHr as (s & Hs & Hne).
           { intros H. apply Hnot. intros s [<- | Hs]; auto. }
           exists s. split; [now right | exact Hne].
        -- exists i. split; [now left | exact E].
    + assert (Hpre' : forall k s, k < S n -> In s rest ->
                        String.get k s = String.get k first).
      { intros k s Hk Hs. destruct (Nat.eq_dec k n) as [-> | Hne].
        - assert (Hlt : n < String.length first) by lia.
          exact (proj1 (differs_at_false first n rest Hlt) Ed s Hs).
        - apply Hpre; [lia | exact Hs]. }
      assert (Hlen' : steps + S n = String.length first) by lia.
      pose proof (IH (S n) Hlen' Hpre') as H. cbv zeta in H.
      destruct H as (Hr & Hall & Hmax).
      split; [lia |]. split; assumption.
Qed.

(** X1: for a vector of at least two strings,
    [find_common_prefix_length] returns the length [n] of their longest
    common prefix: [n] is within every string, all the strings have the
    first [n] characters of the first one, and unless [n] is the whole
    first string, some string is without its character [n].  The length
    comes back as an [int]; it is [n] itself for a first string shorter
    than 2^31. *)
Theorem find_common_prefix_length_spec (p : list string) (r : Z) :
  find_common_prefix_length p = Some r ->
  exists first rest n,
    p = first :: rest /\ rest <> []
    /\ r = Lex.to_int (Z.of_nat n)
    /\ ((Z.of_nat (String.length first) < 2 ^ 31)%Z -> r = Z.of_nat n)
    /\ (forall s, In s p -> n <= String.length s)
    /\ (forall s k, In s p -> k < n -> String.get k s = String.get k first)
    /\ (n < String.length first ->
        exists s, In s rest /\ String.get n s <> String.get n first).
Proof.
  destruct p as [| first [| second more]]; simpl; try discriminate.
  intros [= <-].
  set (rest := second :: more).
  assert (H0 : forall k s, k < 0 -> In s rest ->
                 String.get k s = String.get k first) by (intros; lia).
  pose proof (prefix_loop_spec (String.length first) 0 first rest
                (Nat.add_0_r _) H0) as H.
  cbv zeta in H. destruct H as ([_ Hle] & Hall & Hmax).
  set (n := prefix_loop (String.length first) 0 first rest) in *.
  assert (Hall' : forall s k, In s (first :: rest) -> k < n ->
                    String.get k s = String.get k first).
  { intros s k [<- | Hs] Hk; [reflexivity | now apply Hall]. }
  exists first, rest, n. repeat apply conj; trivial.
  - discriminate.
  - intros Hsmall. apply LexFacts.to_int_small. lia.
  - intros s Hs. destruct (le_lt_dec n (String.length s)) as [Hn | Hn];
      [exact Hn |].
    pose proof (Hall' s (String.length s) Hs Hn) as E.
    rewrite (proj2 (get_none_iff s (String.length s)) (le_n _)) in E.
    symmetry in E. apply get_none_iff in E. lia.
Qed.

Lemma find_common_prefix_length_spec_witness :
  find_common_prefix_length ["data_09.xy"; "data_10.xy"; "data_8.xy"]
  = Some 5%Z
  /\ exists first rest n,
       ["data_09.xy"; "data_10.xy"; "data_8.xy"] = first :: rest
       /\ rest <> []
       /\ 5%Z = Lex.to_int (Z.of_nat n)
       /\ ((Z.of_nat (String.length first) < 2 ^ 31)%Z -> 5%Z = Z.of_nat n)
       /\ (forall s, In s ["data_09.xy"; "data_10.xy"; "data_8.xy"] ->
           n <= String.length s)
       /\ (forall s k, In s ["data_09.xy"; "data_10.xy"; "data_8.xy"] ->
           k < n -> String.get k s = String.get k first)
       /\ (n < String.length first ->
           exists s, In s rest /\ String.get n s <> String.get n first).
Proof.
  assert (H : find_common_prefix_length
                ["data_09.xy"; "data_10.xy"; "data_8.xy"] = Some 5%Z)
    by reflexivity.
  split; [exact H |].
  exact (find_common_prefix_length_spec _ _ H).
Defined.

(** The assertion fails exactly on a vector of fewer than two strings. *)
Lemma find_common_prefix_length_none (p : list string) :
  find_common_prefix_length p = None <-> List.length p <= 1.
Proof.
  destruct p as [| first [| second more]]; simpl; split;
    try reflexivity; try discriminate; try lia.
Qed.

End AppFacts.

(** ** The definition manager: what the commands are *)

Module DefMgrCommands.
Import DefMgr DefMgrFacts.

Section Commands.

Variable f : Tplate -> string.

Lemma undefine_removed_In (tpvec modified_ : list Tplate) (cmd : string) :
  In cmd (undefine_removed tpvec modified_ [])
  <-> exists c, In c tpvec /\ name_found (name c) modified_ = false
                /\ cmd = undefine_cmd c.
Proof.
  induction tpvec as [| i tpvec IH].
  - simpl. split; [intros [] | intros (c & [] & _)].
  - rewrite undefine_removed_cons, in_app_iff, IH. split.
    + intros [H | (c & Hc & Hnf & ->)].
      * destruct (name_found (name i) modified_) eqn:E; [destruct H |].
        destruct H as [<- | []]. exists i. simpl. auto.
      * exists c. simpl. auto.
    + intros (c & [<- | Hc] & Hnf & ->).
      * left. rewrite Hnf. now left.
      * right. exists c. auto.
Qed.

Lemma define_changed_In (tpvec modified_ : list Tplate) (cmd : string) :
  In cmd (define_changed f tpvec modified_ [])
  <-> exists t, In t modified_ /\ In cmd (define_changed f tpvec [t] []).
Proof.
  induction modified_ as [| i w IH].
  - simpl. split; [intros [] | intros (t & [] & _)].
  - rewrite define_changed_cons, in_app_iff, IH. split.
    + intros [H | (t & Ht & H)].
      * exists i. simpl. auto.
      * exists t. simpl. auto.
    + intros (t & [<- | Ht] & H); [now left |].
      right. exists t. auto.
Qed.

(** X2: the commands of [get_commands] are exactly these: [undefine] for
    each committed template whose name is not in the working copy; and for
    each working-copy template, looked up by name among the committed
    ones (the first of that name counts): its [define] when the name is
    not found; its [undefine] and its [define] when the template found
    differs in formal arguments, default values or right-hand side;
    nothing when it does not differ. *)
Theorem get_commands_In (tpvec modified_ : list Tplate) (cmd : string) :
  In cmd (get_commands f tpvec modified_)
  <-> (exists c, In c tpvec /\ name_found (name c) modified_ = false
                 /\ cmd = undefine_cmd c)
      \/ (exists t, In t modified_
            /\ match find (fun j => String.eqb (name t) (name j)) tpvec with
               | None => cmd = define_cmd f t
               | Some j =>
                   ~ same_definition t j
                   /\ (cmd = undefine_cmd t \/ cmd = define_cmd f t)
               end).
Proof.
  rewrite get_commands_passes, in_app_iff, undefine_removed_In,
    define_changed_In.
  apply or_iff_compat_l. split; intros (t & Ht & H); exists t;
    (split; [exact Ht |]); rewrite define_changed_one in *;
    destruct (find _ tpvec) as [j |].
  - destruct (vec_eqb (fargs t) (fargs j) && vec_eqb (defvals t) (defvals j)
              && String.eqb (rhs t) (rhs j)) eqn:E.
    + destruct H.
    + split.
      * intros Hs. apply same_fields_eqb in Hs. congruence.
      * destruct H as [<- | [<- | []]]; auto.
  - destruct H as [<- | []]. reflexivity.
  - destruct H as [Hdiff H].
    destruct (vec_eqb (fargs t) (fargs j) && vec_eqb (defvals t) (defvals j)
              && String.eqb (rhs t) (rhs j)) eqn:E.
    + apply same_fields_eqb in E. contradiction.
    + destruct H as [-> | ->]; simpl; auto.
  - subst cmd. now left.
Qed.

(** X3: with an empty working copy every committed template is
    undefined, in the committed order, and nothing else happens; with
    nothing committed every working-copy template is defined, in its
    order. *)
Theorem get_commands_empty (tpvec modified_ : list Tplate) :
  get_commands f tpvec [] = map undefine_cmd tpvec
  /\ get_commands f [] modified_ = map (define_cmd f) modified_.
Proof.
  split.
  - rewrite get_commands_passes. simpl. rewrite app_nil_r.
    induction tpvec as [| i tpvec IH]; [reflexivity |].
    rewrite undefine_removed_cons, IH. reflexivity.
  - rewrite get_commands_passes. simpl.
    induction modified_ as [| t w IH]; [reflexivity |].
    rewrite define_changed_cons, IH, define_changed_one. reflexivity.
Qed.

End Commands.

End DefMgrCommands.

(** ** The lexer: the rest of its functions *)

Module LexMore.
Import Lex LexFacts.

(** *** Loops over the input *)

Lemma char_at_skipn (input : list ascii) (p k : nat) :
  char_at (skipn p input) k = char_at input (p + k).
Proof.
  unfold char_at. revert p. induction input as [| a input IH]; intros [| p];
    simpl; try reflexivity.
  - now destruct k.
  - apply IH.
Qed.

Lemma char_at_outside (input : list ascii) (p : nat) :
  List.length input <= p -> char_at input p = NUL.
Proof. intros H. unfold char_at. now apply nth_overflow. Qed.

Lemma char_at_inside (input : list ascii) (p : nat) :
  char_at input p <> NUL -> p < List.length input.
Proof.
  intros H. destruct (le_lt_dec (List.length input) p) as [Hle | Hlt];
    [| exact Hlt].
  elim H. now apply char_at_outside.
Qed.

Lemma span_le (p : ascii -> bool) (s : list ascii) :
  span p s <= List.length s.
Proof.
  induction s as [| a s IH]; simpl; [lia |]. destruct (p a); simpl; lia.
Qed.

Lemma span_all (p : ascii -> bool) (s : list ascii) (k : nat) :
  k < span p s -> p (char_at s k) = true.
Proof.
  revert k. induction s as [| a s IH]; intros k; simpl; [lia |].
  destruct (p a) eqn:Ha; [| lia].
  destruct k as [| k]; intros H.
  - exact Ha.
  - change (char_at (a :: s) (S k)) with (char_at s k). apply IH. lia.
Qed.

Lemma span_stop (p : ascii -> bool) (s : list ascii) :
  p NUL = false -> p (char_at s (span p s)) = false.
Proof.
  intros Hnul. induction s as [| a s IH]; simpl; [exact Hnul |].
  destruct (p a) eqn:Ha; [exact IH | exact Ha].
Qed.

Lemma span_mono (p q : ascii -> bool) (s : list ascii) :
  (forall c, p c = true -> q c = true) -> span p s <= span q s.
Proof.
  intros Hpq. induction s as [| a s IH]; simpl; [lia |].
  destruct (p a) eqn:Ha; [| lia]. rewrite (Hpq a Ha). lia.
Qed.

Lemma span_zero (p : ascii -> bool) (s : list ascii) :
  p (char_at s 0) = false -> p NUL = false -> span p s = 0.
Proof.
  destruct s as [| a s]; simpl; [reflexivity |].
  unfold char_at. simpl. now intros ->.
Qed.

(** Where a [while] loop over the input stops: within the input, *)
Lemma scan_while_le (p : ascii -> bool) (input : list ascii) (ptr : nat) :
  ptr <= List.length input -> scan_while p input ptr <= List.length input.
Proof.
  intros H. unfold scan_while.
  pose proof (span_le p (skipn ptr input)) as Hs.
  rewrite length_skipn in Hs. lia.
Qed.

(** at a character that fails the test, *)
Lemma scan_while_stop (p : ascii -> bool) (input : list ascii) (ptr : nat) :
  p NUL = false -> p (char_at input (scan_while p input ptr)) = false.
Proof.
  intros Hnul. unfold scan_while. rewrite <- char_at_skipn.
  now apply span_stop.
Qed.

(** having passed only characters that pass it. *)
Lemma scan_while_all (p : ascii -> bool) (input : list ascii) (ptr k : nat) :
  ptr <= k < scan_while p input ptr -> p (char_at input k) = true.
Proof.
  unfold scan_while. intros [H1 H2].
  replace k with (ptr + (k - ptr)) by lia. rewrite <- char_at_skipn.
  apply span_all. lia.
Qed.

Lemma scan_while_fixed (p : ascii -> bool) (input : list ascii) (ptr : nat) :
  p NUL = false -> p (char_at input ptr) = false ->
  scan_while p input ptr = ptr.
Proof.
  intros Hnul Hc. unfold scan_while. rewrite span_zero; trivial; [lia |].
  rewrite char_at_skipn. now rewrite Nat.add_0_r.
Qed.

Lemma scan_while_idem (p : ascii -> bool) (input : list ascii) (ptr : nat) :
  p NUL = false ->
  scan_while p input (scan_while p input ptr) = scan_while p input ptr.
Proof.
  intros Hnul. apply scan_while_fixed; trivial. now apply scan_while_stop.
Qed.

Lemma strchr_span_lt (c : ascii) (s : list ascii) (k : nat) :
  strchr_span c s = Some k -> k < List.length s.
Proof.
  revert k. induction s as [| a s IH]; intros k; simpl; [discriminate |].
  destruct (Ascii.eqb a c); [intros [= <-]; lia |].
  destruct (Ascii.eqb a NUL); [discriminate |].
  destruct (strchr_span c s) as [k' |]; [| discriminate].
  intros [= <-]. specialize (IH k' eq_refl). lia.
Qed.

Section WithLibc.

Variable double : Type.
Variable strtod : list ascii -> double * nat.
Variable strtol : list ascii -> Z * nat.

Implicit Types (lx : Lexer double) (t : Token double).

Ltac case_ifs :=
  repeat match goal with
         | |- context [if ?b then _ else _] => destruct b
         | |- context [match strchr ?i ?p ?c with _ => _ end] =>
             destruct (strchr i p c)
         | |- context [let '(_, _) := ?x in _] => destruct x
         end.

(** *** read_token again *)

(** [read_token] neither looks at the lookahead flag nor touches it. *)
Lemma read_token_set_peeked (allow_glob b : bool) lx :
  read_token strtod strtol allow_glob (set_peeked b lx)
  = match read_token strtod strtol allow_glob lx with
    | Ret u l => Ret u (set_peeked b l)
    | Throw msg l => Throw msg (set_peeked b l)
    end.
Proof.
  unfold read_token, finish, raise.
  cbn [set_peeked input_ cur_ peeked_ tok_].
  case_ifs; reflexivity.
Qed.

(** Reading again from the start of the token just read gives that token
    again, and the same state. *)
Lemma read_token_reread (allow_glob : bool) lx lx' :
  read_token strtod strtol allow_glob lx = Ret tt lx' ->
  read_token strtod strtol allow_glob (set_cur (str (tok_ lx')) lx')
  = Ret tt lx'.
Proof.
  intros H. pose proof (read_token_ret _ _ _ _ _ _ H) as (Hi & _ & Hs & _).
  unfold read_token at 1. cbn [set_cur input_ cur_ peeked_ tok_].
  rewrite Hs, Hi, scan_while_idem by reflexivity.
  revert H. unfold read_token, finish, raise.
  case_ifs; intros H; try discriminate H; injection H as <-; reflexivity.
Qed.

(** *** The nil token *)

Lemma read_token_nop (allow_glob : bool) lx lx' :
  read_token strtod strtol allow_glob lx = Ret tt lx' ->
  type (tok_ lx') = kTokenNop ->
  length (tok_ lx') = 0 /\ cur_ lx' = str (tok_ lx')
  /\ (char_at (input_ lx') (cur_ lx') = NUL
      \/ char_at (input_ lx') (cur_ lx') = "#"%char).
Proof.
  unfold read_token, finish, raise.
  destruct (Ascii.eqb _ NUL || Ascii.eqb _ "#") eqn:E.
  - intros [= <-] _. cbn [tok_ length cur_ input_ str].
    split; [lia |]. split; [reflexivity |].
    apply orb_true_iff in E as [E | E]; apply Ascii.eqb_eq in E; auto.
  - intros H Ht. exfalso. revert H Ht.
    case_ifs; intros H; try discriminate H; injection H as <-;
      cbn [tok_ type]; discriminate.
Qed.

(** *** Glob mode *)

Lemma scan_while_glob (input : list ascii) (ptr : nat) :
  scan_while (name_char false) input ptr
  <= scan_while (name_char true) input ptr.
Proof.
  unfold scan_while. apply Nat.add_le_mono_l, span_mono.
  intros c. unfold name_char. simpl andb. rewrite orb_false_r.
  intros ->. reflexivity.
Qed.

Lemma read_token_glob lx lf :
  read_token strtod strtol false lx = Ret tt lf ->
  exists lg,
    read_token strtod strtol true lx = Ret tt lg
    /\ input_ lg = input_ lf /\ peeked_ lg = peeked_ lf
    /\ str (tok_ lg) = str (tok_ lf) /\ type (tok_ lg) = type (tok_ lf)
    /\ value (tok_ lg) = value (tok_ lf)
    /\ length (tok_ lf) <= length (tok_ lg)
    /\ (type (tok_ lf) <> kTokenVarname ->
        type (tok_ lf) <> kTokenFuncname -> lg = lf).
Proof.
  unfold read_token, finish, raise.
  case_ifs; intros H; try discriminate H; injection H as <-;
    eexists; (split; [reflexivity |]); cbn [input_ peeked_ tok_ str type
                                            value length];
    repeat apply conj; try reflexivity; try lia;
    try (intros Hv Hf; congruence);
    match goal with
    | |- context [scan_while (name_char true) ?i ?q] =>
        pose proof (scan_while_glob i q); lia
    end.
Qed.

Lemma read_token_glob_throw lx (msg : string) (l : Lexer double) :
  read_token strtod strtol false lx = Throw msg l
  <-> read_token strtod strtol true lx = Throw msg l.
Proof.
  unfold read_token, finish, raise.
  case_ifs; try reflexivity; split; discriminate.
Qed.

(** X8: glob mode changes the reading of [$] and [%] names only, and
    only by making them longer.  [read_token(true)] throws exactly when
    [read_token(false)] does, with the same message; otherwise it reads a
    token of the same kind, at the same place, at least as long; and when
    the kind is neither [$]variable nor [%]function name, it is the same
    token and leaves the same state. *)
Theorem read_token_glob_only_names lx :
  (forall msg l,
      read_token strtod strtol false lx = Throw msg l
      <-> read_token strtod strtol true lx = Throw msg l)
  /\ (forall lf,
        read_token strtod strtol false lx = Ret tt lf ->
        exists lg,
          read_token strtod strtol true lx = Ret tt lg
          /\ str (tok_ lg) = str (tok_ lf)
          /\ type (tok_ lg) = type (tok_ lf)
          /\ length (tok_ lf) <= length (tok_ lg)
          /\ (type (tok_ lf) <> kTokenVarname ->
              type (tok_ lf) <> kTokenFuncname -> lg = lf)).
Proof.
  split.
  - intros msg l. apply read_token_glob_throw.
  - intros lf H.
    destruct (read_token_glob lx lf H)
      as (lg & Hg & _ & _ & Hs & Ht & _ & Hl & Hsame).
    exists lg. auto.
Qed.

(** *** What holds of a buffered token *)

Lemma set_cur_set_peeked (p : nat) (b : bool) lx :
  set_cur p (set_peeked b lx) = set_peeked b (set_cur p lx).
Proof. reflexivity. Qed.

Lemma set_cur_same lx : set_cur (cur_ lx) lx = lx.
Proof. now destruct lx. Qed.

Lemma peek_token_rereads lx :
  buffered_rereads strtod strtol lx ->
  buffered_rereads strtod strtol (state_of (peek_token strtod strtol lx)).
Proof.
  intros Hb. unfold peek_token. destruct (peeked_ lx) eqn:Hp; simpl.
  - rewrite <- Hp, set_peeked_same. exact Hb.
  - destruct (read_token strtod strtol false lx) as [[] lx' | msg lx'] eqn:Hr;
      simpl.
    + intros _. cbn [tok_ set_peeked].
      rewrite set_cur_set_peeked, read_token_set_peeked.
      now rewrite (read_token_reread _ _ _ Hr).
    + apply read_token_throw in Hr as (_ & Hq & _).
      intros Hq'. congruence.
Qed.

(** A property that holds whenever nothing is buffered, and that
    [peek_token] keeps, is kept by every call. *)
Lemma after_preserves (P : Lexer double -> Prop) :
  (forall lx, peeked_ lx = false -> P lx) ->
  (forall lx, P lx -> P (state_of (peek_token strtod strtol lx))) ->
  forall (c : call double) lx, P lx -> P (after strtod strtol c lx).
Proof.
  intros Hun Hpeek c lx HP.
  assert (Hget : forall l, P (state_of (get_token strtod strtol l))).
  { intros l. apply Hun. apply get_token_state. }
  assert (Hexp : forall (A : Type) l
                   (k : Token double -> Lexer double -> outcome double A),
             P l -> (forall t l1, P l1 -> P (state_of (k t l1))) ->
             P (state_of (bind double (peek_token strtod strtol l) k))).
  { intros A l k Hl Hk. pose proof (Hpeek l Hl) as Hs.
    apply state_of_bind.
    - intros msg l' E. now rewrite E in Hs.
    - intros t l' E. apply Hk. now rewrite E in Hs. }
  assert (Hwide : forall p ty l,
             P (state_of (get_wide_token double strtod strtol p ty l))).
  { intros p ty l. unfold get_wide_token.
    pose proof (get_token_state double strtod strtol l) as [_ H2].
    apply state_of_bind.
    - intros msg l' E. rewrite E in H2. now apply Hun.
    - intros t l' E. rewrite E in H2. simpl in H2.
      destruct (TokenType_eqb (type t) kTokenString
                || TokenType_eqb (type t) kTokenNop); simpl;
        apply Hun; simpl; exact H2. }
  destruct c; simpl.
  - apply Hget.
  - now apply Hpeek.
  - now apply Hun.
  - apply Hun. unfold get_glob_token.
    set (lx0 := if peeked_ lx then _ else lx).
    assert (H0 : peeked_ lx0 = false).
    { subst lx0. destruct (peeked_ lx) eqn:Hp; simpl; auto. }
    pose proof (read_token_state double strtod strtol true lx0) as [_ H2].
    destruct (read_token strtod strtol true lx0) as [[] lx' | msg lx'];
      simpl in *; congruence.
  - apply Hwide.
  - apply Hwide.
  - now apply Hun.
  - unfold get_expected_token_raw.
    apply Hexp; trivial. intros t l1 H1.
    apply Hexp; trivial. intros t' l2 H2.
    destruct (negb _); [exact H2 | apply Hget].
  - unfold get_expected_token.
    apply Hexp; trivial. intros t l1 H1.
    destruct (negb _); [exact H1 | apply Hget].
  - unfold get_expected_token_tt2.
    apply Hexp; trivial. intros t l1 H1.
    destruct (_ && _); [exact H1 | apply Hget].
  - unfold get_expected_token_tt_raw.
    apply Hexp; trivial. intros t l1 H1.
    apply Hexp; trivial. intros t' l2 H2.
    destruct (_ && _); [exact H2 | apply Hget].
  - unfold get_expected_token_raw2.
    apply Hexp; trivial. intros t l1 H1.
    apply Hexp; trivial. intros t' l2 H2.
    destruct (_ && _); [exact H2 | apply Hget].
  - unfold get_token_if.
    apply Hexp; trivial. intros t l1 H1.
    destruct (TokenType_eqb _ _); [apply Hget | exact H1].
Qed.

Lemma reachable_rereads (input : list ascii) lx :
  reachable strtod strtol input lx -> buffered_rereads strtod strtol lx.
Proof.
  induction 1 as [tok0 | c lx _ IH].
  - intros H. discriminate H.
  - apply after_preserves; trivial.
    + intros l Hl Hp. congruence.
    + apply peek_token_rereads.
Qed.

(** The token that [get_token] returns is read again from its start. *)
Lemma get_token_reread (input : list ascii) lx lx1 t :
  reachable strtod strtol input lx ->
  get_token strtod strtol lx = Ret t lx1 ->
  peeked_ lx1 = false /\ tok_ lx1 = t
  /\ read_token strtod strtol false (set_cur (str t) lx1) = Ret tt lx1.
Proof.
  intros Hreach. pose proof (reachable_rereads input lx Hreach) as Hb.
  unfold get_token. destruct (peeked_ lx) eqn:Hp; simpl.
  - intros [= <- <-]. cbn [set_peeked peeked_ tok_].
    repeat split.
    change (set_cur (str (tok_ lx)) (set_peeked false lx))
      with (set_peeked false (set_cur (str (tok_ lx)) lx)).
    now rewrite read_token_set_peeked, (Hb Hp).
  - destruct (read_token strtod strtol false lx) as [[] lx' | msg lx'] eqn:Hr;
      simpl; [| discriminate].
    intros [= <- <-]. cbn [set_peeked peeked_ tok_].
    repeat split.
    change (set_cur (str (tok_ lx')) (set_peeked false lx'))
      with (set_peeked false (set_cur (str (tok_ lx')) lx')).
    now rewrite read_token_set_peeked, (read_token_reread _ _ _ Hr).
Qed.

(** X9: [go_back] undoes [get_token].  On every state of a lexer, after
    [get_token] has returned a token, [go_back] with that token followed
    by [get_token] returns the same token and leaves the lexer in the
    state the first [get_token] left it in. *)
Theorem go_back_get_token (input : list ascii) lx lx1 t :
  reachable strtod strtol input lx ->
  get_token strtod strtol lx = Ret t lx1 ->
  get_token strtod strtol (state_of (go_back t lx1)) = Ret t lx1.
Proof.
  intros Hreach Hget.
  destruct (get_token_reread input lx lx1 t Hreach Hget) as (Hp & Ht & Hr).
  unfold go_back, state_of, get_token. cbn [peeked_].
  replace (mkLexer (input_ lx1) (str t) false (tok_ lx1))
    with (set_cur (str t) lx1).
  - rewrite Hr. simpl. rewrite Ht, <- Hp. now rewrite set_peeked_same.
  - unfold set_cur. now rewrite Hp.
Qed.

(** X7: the nil token does not go away.  When [get_token] returns the
    nil token, the token is empty, it stands at the end of the input or
    at a [#], and every further [get_token] returns it again without
    moving. *)
Theorem get_token_at_end (input : list ascii) lx lx1 t :
  reachable strtod strtol input lx ->
  get_token strtod strtol lx = Ret t lx1 ->
  type t = kTokenNop ->
  length t = 0
  /\ cur_ lx1 = str t
  /\ (char_at input (str t) = NUL \/ char_at input (str t) = "#"%char)
  /\ get_token strtod strtol lx1 = Ret t lx1.
Proof.
  intros Hreach Hget Hnop.
  destruct (get_token_reread input lx lx1 t Hreach Hget) as (Hp & Ht & Hr).
  assert (Hreach1 : reachable strtod strtol input
                      (after strtod strtol (CallGetToken double) lx))
    by (apply reachable_call; exact Hreach).
  pose proof (reachable_good double strtod strtol input _ Hreach1) as [Hi _].
  simpl in Hi. rewrite Hget in Hi. simpl in Hi.
  destruct (read_token_nop _ _ _ Hr) as (Hlen & Hcur & Hchar).
  { now rewrite Ht. }
  rewrite Ht in *. rewrite Hi, Hcur in Hchar.
  repeat split; trivial.
  rewrite <- Hcur, set_cur_same in Hr.
  unfold get_token. rewrite Hp, Hr. simpl.
  rewrite Ht, <- Hp. now rewrite set_peeked_same.
Qed.

(** X10: [get_glob_token] reads the buffered token again, in glob mode.
    On every state of a lexer, after [peek_token] has returned a token,
    [get_glob_token] returns a token of the same kind at the same place,
    at least as long, and leaves nothing buffered and the cursor at its
    end; unless the token is a [$] or [%] name, it is the peeked token
    itself. *)
Theorem get_glob_token_after_peek (input : list ascii) lx lx1 t :
  reachable strtod strtol input lx ->
  peek_token strtod strtol lx = Ret t lx1 ->
  exists t' lx2,
    get_glob_token strtod strtol lx1 = Ret t' lx2
    /\ str t' = str t /\ type t' = type t /\ length t <= length t'
    /\ cur_ lx2 = str t' + length t' /\ peeked_ lx2 = false
    /\ tok_ lx2 = t'
    /\ (type t <> kTokenVarname -> type t <> kTokenFuncname -> t' = t).
Proof.
  intros Hreach Hpeek.
  assert (Hreach1 : reachable strtod strtol input
                      (after strtod strtol (CallPeekToken double) lx))
    by (apply reachable_call; exact Hreach).
  simpl in Hreach1. rewrite Hpeek in Hreach1. simpl in Hreach1.
  pose proof (reachable_rereads input lx1 Hreach1) as Hb.
  destruct (peek_token_ret double strtod strtol _ _ _ Hpeek)
    as (Hp & Ht & _ & _).
  specialize (Hb Hp).
  unfold get_glob_token. rewrite Hp.
  change (mkLexer (input_ lx1) (str (tok_ lx1)) false (tok_ lx1))
    with (set_peeked false (set_cur (str (tok_ lx1)) lx1)).
  assert (Hf : read_token strtod strtol false
                 (set_peeked false (set_cur (str (tok_ lx1)) lx1))
               = Ret tt (set_peeked false lx1))
    by (now rewrite read_token_set_peeked, Hb).
  destruct (read_token_glob _ _ Hf)
    as (lg & Hg & _ & Hpg & Hs & Hty & _ & Hl & Hsame).
  pose proof (read_token_ret double strtod strtol _ _ _ Hg) as (_ & _ & _ & Hc).
  cbn [set_peeked tok_ peeked_] in *.
  exists (tok_ lg), lg. rewrite Hg. simpl. rewrite <- Ht.
  repeat split; trivial.
  intros Hv Hfn. now rewrite (Hsame Hv Hfn).
Qed.

(** *** Optional and expected tokens *)

(** X11: [get_token_if] consumes the next token only when it is of the
    kind asked for.  Then it is [get_token]; otherwise it returns an
    empty nil token at the cursor and leaves the next token buffered, so
    that the [get_token] that follows returns it; and when the next token
    cannot be read it throws what [peek_token] throws. *)
Theorem get_token_if_spec (ty : TokenType) lx :
  (forall t lx1,
      peek_token strtod strtol lx = Ret t lx1 ->
      (type t = ty ->
       get_token_if strtod strtol ty lx = get_token strtod strtol lx)
      /\ (type t <> ty ->
          get_token_if strtod strtol ty lx
          = Ret (mkToken (cur_ lx1) kTokenNop 0 ValueUnset) lx1
          /\ get_token strtod strtol lx1 = get_token strtod strtol lx
          /\ get_token strtod strtol lx = Ret t (set_peeked false lx1)))
  /\ (forall msg lx1,
        peek_token strtod strtol lx = Throw msg lx1 ->
        get_token_if strtod strtol ty lx = Throw msg lx1).
Proof.
  split.
  - intros t lx1 Hpeek.
    destruct (get_token_after_peek double strtod strtol _ _ _ Hpeek)
      as [Hg1 Hg].
    unfold get_token_if. rewrite Hpeek. simpl. split.
    + intros Hty. apply TokenType_eqb_eq in Hty. rewrite Hty. congruence.
    + intros Hty. apply TokenType_eqb_neq in Hty. rewrite Hty.
      repeat split; congruence.
  - intros msg lx1 Hpeek. unfold get_token_if. now rewrite Hpeek.
Qed.

(** X12: an expected-token call whose expectation is met is [get_token]:
    it returns the next token and consumes it.  The expectation of the
    call with a kind and a text is met by either of them. *)
Theorem expected_token_met lx lx1 t :
  peek_token strtod strtol lx = Ret t lx1 ->
  let s := as_string (input_ lx1) t in
  get_token strtod strtol lx = Ret t (set_peeked false lx1)
  /\ (forall ty, type t = ty ->
        get_expected_token strtod strtol ty lx = get_token strtod strtol lx)
  /\ (forall raw, s = raw ->
        get_expected_token_raw strtod strtol raw lx
        = get_token strtod strtol lx)
  /\ (forall tt1 tt2, type t = tt1 \/ type t = tt2 ->
        get_expected_token_tt2 strtod strtol tt1 tt2 lx
        = get_token strtod strtol lx)
  /\ (forall ty raw, type t = ty \/ s = raw ->
        get_expected_token_tt_raw strtod strtol ty raw lx
        = get_token strtod strtol lx)
  /\ (forall raw1 raw2, s = raw1 \/ s = raw2 ->
        get_expected_token_raw2 strtod strtol raw1 raw2 lx
        = get_token strtod strtol lx).
Proof.
  intros Hpeek s.
  destruct (get_token_after_peek double strtod strtol _ _ _ Hpeek)
    as [Hg1 Hg].
  repeat apply conj.
  - exact Hg.
  - intros ty Hty. unfold get_expected_token.
    rewrite (peek_bind double strtod strtol _ _ _ _ Hpeek).
    apply TokenType_eqb_eq in Hty. rewrite Hty. simpl. congruence.
  - intros raw Hraw. unfold get_expected_token_raw.
    rewrite (peek_bind2 double strtod strtol _ _ _ _ Hpeek). fold s.
    apply String.eqb_eq in Hraw. rewrite Hraw. simpl. congruence.
  - intros tt1 tt2 H. unfold get_expected_token_tt2.
    rewrite (peek_bind double strtod strtol _ _ _ _ Hpeek).
    assert (E : negb (TokenType_eqb (type t) tt1)
                && negb (TokenType_eqb (type t) tt2) = false).
    { destruct H as [H | H]; apply TokenType_eqb_eq in H; rewrite H;
        simpl; auto using andb_false_r. }
    rewrite E. congruence.
  - intros ty raw H. unfold get_expected_token_tt_raw.
    rewrite (peek_bind2 double strtod strtol _ _ _ _ Hpeek). fold s.
    assert (E : negb (TokenType_eqb (type t) ty)
                && negb (String.eqb s raw) = false).
    { destruct H as [H | H];
        [apply TokenType_eqb_eq in H | apply String.eqb_eq in H];
        rewrite H; simpl; auto using andb_false_r. }
    rewrite E. congruence.
  - intros raw1 raw2 H. unfold get_expected_token_raw2.
    rewrite (peek_bind2 double strtod strtol _ _ _ _ Hpeek). fold s.
    assert (E : negb (String.eqb s raw1) && negb (String.eqb s raw2) = false).
    { destruct H as [H | H]; apply String.eqb_eq in H; rewrite H;
        simpl; auto using andb_false_r. }
    rewrite E. congruence.
Qed.

(** X17: a lexical error does not move the lexer.  When [get_token]
    throws, the cursor is where it was and nothing is buffered, and
    [get_token] and [peek_token] throw the same error again, as often as
    they are called. *)
Theorem get_token_error_stays lx lx1 (msg : string) :
  get_token strtod strtol lx = Throw msg lx1 ->
  cur_ lx1 = cur_ lx /\ peeked_ lx1 = false /\ input_ lx1 = input_ lx
  /\ get_token strtod strtol lx1 = Throw msg lx1
  /\ peek_token strtod strtol lx1 = Throw msg lx1.
Proof.
  unfold get_token. destruct (peeked_ lx) eqn:Hp; simpl; [discriminate |].
  destruct (read_token strtod strtol false lx) as [[] lx' | msg' lx'] eqn:Hr;
    simpl; [discriminate |].
  intros [= <- <-].
  pose proof (read_token_throw double strtod strtol _ _ _ _ Hr)
    as (Hi & Hq & Hc).
  pose proof (read_token_throw_again double strtod strtol _ _ _ _ Hr) as Ha.
  repeat split; try congruence.
  - unfold get_token. rewrite Hq, Hp, Ha. reflexivity.
  - unfold peek_token. rewrite Hq, Hp, Ha. reflexivity.
Qed.

(** [read_token] skips white space and nothing else: the token it
    returns starts at the first character, from the cursor on, that is
    not white space. *)
Lemma read_token_skips_space (allow_glob : bool) lx lx' :
  read_token strtod strtol allow_glob lx = Ret tt lx' ->
  cur_ lx <= str (tok_ lx')
  /\ (forall k, cur_ lx <= k < str (tok_ lx') ->
        isspace (char_at (input_ lx) k) = true)
  /\ isspace (char_at (input_ lx) (str (tok_ lx'))) = false.
Proof.
  intros H.
  pose proof (read_token_ret double strtod strtol _ _ _ H) as (_ & _ & Hs & _).
  rewrite Hs. repeat split.
  - apply scan_while_ge.
  - intros k Hk. now apply (scan_while_all isspace _ (cur_ lx)).
  - now apply scan_while_stop.
Qed.

(** *** Wide tokens *)

Lemma get_token_cursor (input : list ascii) lx lx1 t :
  reachable strtod strtol input lx ->
  get_token strtod strtol lx = Ret t lx1 ->
  input_ lx1 = input /\ cur_ lx1 = str t + length t
  /\ peeked_ lx1 = false /\ tok_ lx1 = t.
Proof.
  intros Hreach.
  pose proof (reachable_good double strtod strtol input lx Hreach) as [Hi Hb].
  unfold get_token. destruct (peeked_ lx) eqn:Hp; simpl.
  - intros [= <- <-]. simpl. auto.
  - destruct (read_token strtod strtol false lx) as [[] lx' | msg lx'] eqn:Hr;
      simpl; [| discriminate].
    intros [= <- <-]. simpl.
    apply (read_token_ret double strtod strtol) in Hr as (Hi' & _ & _ & Hc).
    repeat split; congruence.
Qed.

Lemma get_wide_token_spec (input : list ascii) (p : ascii -> bool)
    (ty : TokenType) lx lx1 t :
  p NUL = false ->
  reachable strtod strtol input lx ->
  get_token strtod strtol lx = Ret t lx1 ->
  (type t = kTokenString \/ type t = kTokenNop ->
   get_wide_token double strtod strtol p ty lx = Ret t lx1)
  /\ (type t <> kTokenString -> type t <> kTokenNop ->
      exists n,
        get_wide_token double strtod strtol p ty lx
        = Ret (mkToken (str t) ty (length t + n) (value t))
            (mkLexer input (str t + length t + n) false t)
        /\ (forall k, k < n -> p (char_at input (str t + length t + k)) = true)
        /\ p (char_at input (str t + length t + n)) = false).
Proof.
  intros Hnul Hreach Hget.
  destruct (get_token_cursor input lx lx1 t Hreach Hget)
    as (Hi & Hc & Hp & Ht).
  unfold get_wide_token. rewrite Hget. simpl. split.
  - intros [H | H]; apply TokenType_eqb_eq in H; rewrite H;
      [reflexivity | now rewrite orb_true_r].
  - intros Hs Hn. apply TokenType_eqb_neq in Hs, Hn. rewrite Hs, Hn. simpl.
    exists (span p (skipn (cur_ lx1) input)).
    rewrite Hi. unfold scan_while, set_cur. rewrite Hi, Hp, Ht, Hc.
    repeat split.
    + do 2 f_equal. lia.
    + intros k Hk. rewrite <- char_at_skipn. now apply span_all.
    + rewrite <- char_at_skipn. now apply span_stop.
Qed.

(** X13: [get_word_token] and [get_rest_of_cmd] widen the token that
    [get_token] returns, on every state of a lexer.  A quoted string or
    the nil token is returned as it is.  Any other token is made a word
    (a rest-of-line) that starts where the token starts and goes on after
    it up to, and not including, the first character that is NUL, white
    space, [;] or [#] (for [get_rest_of_cmd]: NUL, [;] or [#]); the
    cursor is left there, with nothing buffered. *)
Theorem get_word_token_spec (input : list ascii) lx lx1 t :
  reachable strtod strtol input lx ->
  get_token strtod strtol lx = Ret t lx1 ->
  (type t = kTokenString \/ type t = kTokenNop ->
   get_word_token strtod strtol lx = Ret t lx1
   /\ get_rest_of_cmd strtod strtol lx = Ret t lx1)
  /\ (type t <> kTokenString -> type t <> kTokenNop ->
      (exists n,
         get_word_token strtod strtol lx
         = Ret (mkToken (str t) kTokenWord (length t + n) (value t))
             (mkLexer input (str t + length t + n) false t)
         /\ (forall k, k < n ->
               let c := char_at input (str t + length t + k) in
               c <> NUL /\ isspace c = false
               /\ c <> ";"%char /\ c <> "#"%char)
         /\ (let c := char_at input (str t + length t + n) in
             c = NUL \/ isspace c = true \/ c = ";"%char \/ c = "#"%char))
      /\ (exists n,
            get_rest_of_cmd strtod strtol lx
            = Ret (mkToken (str t) kTokenRest (length t + n) (value t))
                (mkLexer input (str t + length t + n) false t)
            /\ (forall k, k < n ->
                  let c := char_at input (str t + length t + k) in
                  c <> NUL /\ c <> ";"%char /\ c <> "#"%char)
            /\ (let c := char_at input (str t + length t + n) in
                c = NUL \/ c = ";"%char \/ c = "#"%char))).
Proof.
  intros Hreach Hget.
  set (pw := fun c => negb (Ascii.eqb c NUL) && negb (isspace c)
                      && negb (Ascii.eqb c ";") && negb (Ascii.eqb c "#")).
  set (pc := fun c => negb (Ascii.eqb c NUL) && negb (Ascii.eqb c ";")
                      && negb (Ascii.eqb c "#")).
  destruct (get_wide_token_spec input pw kTokenWord lx lx1 t eq_refl
              Hreach Hget) as [Hw1 Hw2].
  destruct (get_wide_token_spec input pc kTokenRest lx lx1 t eq_refl
              Hreach Hget) as [Hc1 Hc2].
  split.
  - intros H. split; [exact (Hw1 H) | exact (Hc1 H)].
  - intros Hs Hn. split.
    + destruct (Hw2 Hs Hn) as (n & Hret & Hall & Hstop).
      exists n. split; [exact Hret |]. split.
      * intros k Hk. specialize (Hall k Hk). unfold pw in Hall.
        rewrite !andb_true_iff, !negb_true_iff in Hall.
        destruct Hall as (((H1 & H2) & H3) & H4).
        apply Ascii.eqb_neq in H1, H3, H4. cbv zeta. auto.
      * unfold pw in Hstop. cbv zeta.
        rewrite !andb_false_iff, !negb_false_iff in Hstop.
        destruct Hstop as [[[H | H] | H] | H];
          try apply Ascii.eqb_eq in H; auto.
    + destruct (Hc2 Hs Hn) as (n & Hret & Hall & Hstop).
      exists n. split; [exact Hret |]. split.
      * intros k Hk. specialize (Hall k Hk). unfold pc in Hall.
        rewrite !andb_true_iff, !negb_true_iff in Hall.
        destruct Hall as ((H1 & H3) & H4).
        apply Ascii.eqb_neq in H1, H3, H4. cbv zeta. auto.
      * unfold pc in Hstop. cbv zeta.
        rewrite !andb_false_iff, !negb_false_iff in Hstop.
        destruct Hstop as [[H | H] | H]; apply Ascii.eqb_eq in H; auto.
Qed.

(** X6: the tokens of a lexer follow one another.  On every state of a
    lexer, when [get_token] returns a token and the next [get_token]
    returns another, the second starts at or after the end of the first,
    with nothing but white space between them. *)
Theorem get_token_consecutive (input : list ascii) lx lx1 lx2 t1 t2 :
  reachable strtod strtol input lx ->
  get_token strtod strtol lx = Ret t1 lx1 ->
  get_token strtod strtol lx1 = Ret t2 lx2 ->
  str t1 + length t1 <= str t2
  /\ (forall k, str t1 + length t1 <= k < str t2 ->
        isspace (char_at input k) = true)
  /\ isspace (char_at input (str t2)) = false
  /\ cur_ lx2 = str t2 + length t2.
Proof.
  intros Hreach Hget1 Hget2.
  destruct (get_token_cursor input lx lx1 t1 Hreach Hget1)
    as (Hi & Hc & Hp & _).
  revert Hget2. unfold get_token. rewrite Hp.
  destruct (read_token strtod strtol false lx1) as [[] lx' | msg lx'] eqn:Hr;
    simpl; [| discriminate].
  intros [= <- <-].
  pose proof (read_token_ret double strtod strtol _ _ _ Hr)
    as (_ & _ & Hs & Hc').
  rewrite Hi, Hc in Hs. cbn [set_peeked cur_]. rewrite Hs.
  repeat split.
  - apply scan_while_ge.
  - intros k Hk. now apply (scan_while_all isspace input (str t1 + length t1)).
  - now apply scan_while_stop.
  - rewrite <- Hs. exact Hc'.
Qed.

(** X14: [get_rest_of_line] never throws and takes everything that is
    left.  It returns a rest-of-line token that ends at the end of the
    input, where it leaves the cursor with nothing buffered, so that the
    next [get_token] returns the nil token.  The token starts at the
    buffered token when there is one (which is thereby taken back), and
    otherwise at the first character that is not white space. *)
Theorem get_rest_of_line_spec (input : list ascii) lx :
  reachable strtod strtol input lx ->
  exists r lx2,
    get_rest_of_line lx = Ret r lx2
    /\ type r = kTokenRest
    /\ (peeked_ lx = true -> str r = str (tok_ lx))
    /\ (peeked_ lx = false ->
        cur_ lx <= str r
        /\ (forall k, cur_ lx <= k < str r ->
              isspace (char_at input k) = true)
        /\ isspace (char_at input (str r)) = false)
    /\ cur_ lx2 = str r + length r
    /\ char_at input (cur_ lx2) = NUL
    /\ (forall k, cur_ lx <= k < cur_ lx2 -> char_at input k <> NUL)
    /\ peeked_ lx2 = false /\ input_ lx2 = input
    /\ exists t3 lx3,
         get_token strtod strtol lx2 = Ret t3 lx3
         /\ type t3 = kTokenNop /\ cur_ lx3 = cur_ lx2.
Proof.
  intros Hreach.
  pose proof (reachable_good double strtod strtol input lx Hreach) as [Hi Hb].
  unfold get_rest_of_line. rewrite Hi.
  set (cur1 := scan_while isspace input (cur_ lx)).
  set (notnul := fun c : ascii => negb (Ascii.eqb c NUL)).
  set (cur2 := scan_while notnul input cur1).
  assert (H1 : cur_ lx <= cur1) by apply scan_while_ge.
  assert (H2 : cur1 <= cur2) by apply scan_while_ge.
  assert (Hnul : char_at input cur2 = NUL).
  { pose proof (scan_while_stop notnul input cur1 eq_refl) as H.
    fold cur2 in H. unfold notnul in H.
    apply negb_false_iff, Ascii.eqb_eq in H. exact H. }
  eexists. eexists. split; [reflexivity |].
  cbn [type str length cur_ peeked_ input_].
  repeat apply conj; trivial.
  - intros Hp. now rewrite Hp.
  - intros Hp. rewrite Hp. repeat split; trivial.
    + intros k Hk. now apply (scan_while_all isspace input (cur_ lx)).
    + now apply scan_while_stop.
  - destruct (peeked_ lx) eqn:Hp; [| lia].
    specialize (Hb Hp). lia.
  - intros k Hk Hn.
    destruct (le_lt_dec cur1 k) as [Hge | Hlt].
    + pose proof (scan_while_all notnul input cur1 k (conj Hge (proj2 Hk)))
        as H.
      unfold notnul in H. rewrite Hn in H. discriminate H.
    + pose proof (scan_while_all isspace input (cur_ lx) k
                    (conj (proj1 Hk) Hlt)) as H.
      rewrite Hn in H. discriminate H.
  - unfold get_token. cbn [peeked_].
    unfold read_token, finish. cbn [input_ cur_ tok_ peeked_].
    rewrite scan_while_fixed by (trivial; now rewrite Hnul).
    rewrite Hnul.
    change (Ascii.eqb NUL NUL || Ascii.eqb NUL "#") with true. cbv iota.
    simpl. eexists. eexists. split; [reflexivity |]. split; reflexivity.
Qed.


(** *** What the names look like *)

Ltac case_ifs_eq :=
  repeat match goal with
         | |- context [if ?b then _ else _] =>
             let E := fresh "E" in destruct b eqn:E
         | |- context [match strchr ?i ?p ?c with _ => _ end] =>
             let E := fresh "Echr" in destruct (strchr i p c) eqn:E
         | |- context [let '(_, _) := ?x in _] =>
             let E := fresh "Elibc" in destruct x eqn:E
         end.

Lemma scan_while_pos (p : ascii -> bool) (input : list ascii) (ptr : nat) :
  p NUL = false -> p (char_at input ptr) = true ->
  ptr + 1 <= scan_while p input ptr.
Proof.
  intros Hnul H. unfold scan_while. apply Nat.add_le_mono_l.
  replace ptr with (ptr + 0) in H by lia. rewrite <- char_at_skipn in H.
  destruct (skipn ptr input) as [| a rest]; unfold char_at in H; simpl in H.
  - congruence.
  - simpl. rewrite H. lia.
Qed.

(** X15: the three kinds of plain names.  A token that [read_token]
    returns as lower-case name starts with a lower-case letter or [_] and
    consists of letters, digits and [_]; as CamelCase name, it starts
    with an upper-case letter and goes on with at least one letter or
    digit, and with letters and digits only; as upper-case letter, it is
    one upper-case letter.  Each is as long as it can be: the character
    after it could not continue it. *)
Theorem read_token_names (allow_glob : bool) lx lx' :
  read_token strtod strtol allow_glob lx = Ret tt lx' ->
  let t := tok_ lx' in
  let c := fun k => char_at (input_ lx') (str t + k) in
  match type t with
  | kTokenLname =>
      1 <= length t
      /\ (islower (c 0) = true \/ c 0 = "_"%char)
      /\ (forall k, k < length t -> isalnum (c k) = true \/ c k = "_"%char)
      /\ isalnum (c (length t)) = false /\ c (length t) <> "_"%char
  | kTokenCname =>
      2 <= length t
      /\ isupper (c 0) = true
      /\ (forall k, 1 <= k < length t -> isalnum (c k) = true)
      /\ isalnum (c (length t)) = false
  | kTokenUletter =>
      length t = 1 /\ isupper (c 0) = true /\ isalnum (c 1) = false
  | _ => True
  end.
Proof.
  unfold read_token, finish, raise.
  set (input := input_ lx). set (start := scan_while isspace input (cur_ lx)).
  case_ifs_eq; intros H; try discriminate H; injection H as <-;
    cbn [tok_ type str length input_]; try exact I; fold input;
    rewrite ?Nat.add_0_r.
  - (* CamelCase *)
    match goal with
    | Hu : isupper (char_at input start) = true,
      Ha : isalnum (char_at input (start + 1)) = true |- _ =>
        pose proof (scan_while_pos isalnum input (start + 1) eq_refl Ha)
          as Hpos;
        pose proof (scan_while_stop isalnum input (start + 1) eq_refl)
          as Hstop;
        pose proof (scan_while_all isalnum input (start + 1)) as Hall;
        rename Hu into Hupper
    end.
    set (stop := scan_while isalnum input (start + 1)) in *.
    replace (start + (stop - start)) with stop by lia.
    repeat split; trivial; try lia.
    intros k Hk. apply Hall. lia.
  - (* one upper-case letter *)
    match goal with
    | Hu : isupper (char_at input start) = true,
      Ha : isalnum (char_at input (start + 1)) = false |- _ =>
        repeat split; trivial; lia
    end.
  - (* lower case *)
    match goal with
    | Hu : isupper (char_at input start) = false,
      Ha : isalpha (char_at input start) || _ = true |- _ =>
        rename Hu into Hupper; rename Ha into Halpha
    end.
    set (p := fun a : ascii => isalnum a || Ascii.eqb a "_") in *.
    assert (Hp0 : p (char_at input start) = true).
    { unfold p, isalnum. apply orb_true_iff in Halpha as [Ha | Ha];
        rewrite Ha; simpl; auto using orb_true_r. }
    pose proof (scan_while_pos p input start eq_refl Hp0) as Hpos.
    pose proof (scan_while_stop p input start eq_refl) as Hstop.
    pose proof (scan_while_all p input start) as Hall.
    set (stop := scan_while p input start) in *.
    replace (start + (stop - start)) with stop by lia.
    repeat apply conj.
    + lia.
    + unfold isalpha in Halpha. rewrite Hupper in Halpha. simpl in Halpha.
      apply orb_true_iff in Halpha as [Ha | Ha]; [now left |].
      apply Ascii.eqb_eq in Ha. now right.
    + intros k Hk. assert (Hk' : start <= start + k < stop) by lia.
      specialize (Hall _ Hk'). unfold p in Hall.
      apply orb_true_iff in Hall as [Ha | Ha]; [now left |].
      apply Ascii.eqb_eq in Ha. now right.
    + unfold p in Hstop. now apply orb_false_iff in Hstop.
    + unfold p in Hstop. apply orb_false_iff in Hstop as [_ Hs].
      now apply Ascii.eqb_neq.
Qed.

(** *** Staying inside the input, and moving on *)

Ltac next_char_inside k :=
  match goal with
  | input := _ : list ascii, start := _ : nat |- _ =>
      assert (start + k < List.length input)
        by (apply char_at_inside; intros Hnul_; rewrite Hnul_ in *;
            cbn in *; congruence)
  end.

Lemma read_token_in_bounds (allow_glob : bool) lx :
  libc_in_bounds strtod strtol ->
  cur_ lx <= List.length (input_ lx) ->
  cur_ (state_of (read_token strtod strtol allow_glob lx))
  <= List.length (input_ lx).
Proof.
  intros [Hd Hl] Hcur.
  destruct (read_token strtod strtol allow_glob lx) as [[] lx' | msg lx'] eqn:H;
    simpl.
  2:{ apply (read_token_throw double strtod strtol) in H as (_ & _ & ->).
      exact Hcur. }
  revert H. unfold read_token, finish, raise.
  set (input := input_ lx) in *.
  set (start := scan_while isspace input (cur_ lx)).
  assert (Hs : start <= List.length input) by now apply scan_while_le.
  destruct (Ascii.eqb (char_at input start) NUL
            || Ascii.eqb (char_at input start) "#") eqn:E0.
  - intros [= <-]. exact Hs.
  - assert (H0 : start < List.length input).
    { apply char_at_inside. intros Hn. rewrite Hn in E0. discriminate E0. }
    case_ifs_eq; intros H; try discriminate H; injection H as <-;
      cbn [cur_]; try lia;
      try (apply scan_while_le); try lia;
      try (next_char_inside 1; lia);
      try (next_char_inside 1; next_char_inside 2; lia).
    + (* a quoted string *)
      unfold strchr in Echr.
      destruct (strchr_span "'" (skipn (start + 1) input)) as [k |] eqn:Ek;
        [| discriminate].
      injection Echr as <-. apply strchr_span_lt in Ek.
      rewrite length_skipn in Ek. lia.
    + (* a number that starts with a dot *)
      pose proof (Hd (skipn start input)) as Hb. rewrite Elibc in Hb.
      simpl in Hb. rewrite length_skipn in Hb. lia.
    + (* a dataset number *)
      pose proof (Hl (skipn (start + 1) input)) as Hb. rewrite Elibc in Hb.
      simpl in Hb. rewrite length_skipn in Hb. lia.
    + (* a number *)
      pose proof (Hd (skipn start input)) as Hb. rewrite Elibc in Hb.
      simpl in Hb. rewrite length_skipn in Hb. lia.
Qed.

Section Bounds.

Variable input : list ascii.
Hypothesis libc : libc_in_bounds strtod strtol.

Lemma read_token_inside (allow_glob : bool) lx :
  inside input lx -> inside input (state_of (read_token strtod strtol allow_glob lx)).
Proof.
  intros [Hi Hc]. split.
  - rewrite <- Hi. apply read_token_state.
  - pose proof (read_token_in_bounds allow_glob lx libc) as H.
    rewrite Hi in H. now apply H.
Qed.

Lemma get_token_inside lx :
  inside input lx -> inside input (state_of (get_token strtod strtol lx)).
Proof.
  intros Hin. unfold get_token. destruct (peeked_ lx); simpl; [exact Hin |].
  pose proof (read_token_inside false lx Hin) as H.
  destruct (read_token strtod strtol false lx); simpl in *; exact H.
Qed.

Lemma peek_token_inside lx :
  inside input lx -> inside input (state_of (peek_token strtod strtol lx)).
Proof.
  intros Hin. unfold peek_token. destruct (peeked_ lx); simpl; [exact Hin |].
  pose proof (read_token_inside false lx Hin) as H.
  destruct (read_token strtod strtol false lx); simpl in *; exact H.
Qed.

Lemma expect_inside {A : Type} lx
    (k : Token double -> Lexer double -> outcome double A) :
  inside input lx ->
  (forall t l1, inside input l1 -> inside input (state_of (k t l1))) ->
  inside input (state_of (bind double (peek_token strtod strtol lx) k)).
Proof.
  intros Hin Hk. pose proof (peek_token_inside lx Hin) as Hp.
  apply state_of_bind.
  - intros msg l' E. now rewrite E in Hp.
  - intros t l' E. apply Hk. now rewrite E in Hp.
Qed.

Lemma get_wide_token_inside (p : ascii -> bool) (ty : TokenType) lx :
  inside input lx ->
  inside input (state_of (get_wide_token double strtod strtol p ty lx)).
Proof.
  intros Hin. unfold get_wide_token.
  pose proof (get_token_inside lx Hin) as Hg.
  apply state_of_bind.
  - intros msg l' E. now rewrite E in Hg.
  - intros t l' E. rewrite E in Hg. simpl in Hg. destruct Hg as [Hi Hc].
    destruct (TokenType_eqb (type t) kTokenString
              || TokenType_eqb (type t) kTokenNop); simpl;
      split; trivial.
    rewrite Hi. now apply scan_while_le.
Qed.

(** X4: the cursor never leaves the input.  With a C library whose
    [strtod] and [strtol] do not read beyond the string they are given,
    every call on a state of the lexer whose cursor is inside the input
    (at the terminator at most) leaves it inside the input, whether the
    call returns or throws; for [go_back] this asks that the token
    handed in starts inside the input. *)
Theorem cursor_in_bounds (c : call double) lx :
  reachable strtod strtol input lx ->
  cur_ lx <= List.length input ->
  match c with
  | CallGoBack _ token => str token <= List.length input
  | _ => True
  end ->
  cur_ (after strtod strtol c lx) <= List.length input.
Proof.
  intros Hreach Hc Htoken.
  pose proof (reachable_good double strtod strtol input lx Hreach) as [Hi Hb].
  assert (Hin : inside input lx) by (split; assumption).
  assert (Hgoal : inside input (after strtod strtol c lx)); [| apply Hgoal].
  destruct c; simpl.
  - now apply get_token_inside.
  - now apply peek_token_inside.
  - split; simpl; assumption.
  - unfold get_glob_token.
    set (lx0 := if peeked_ lx then _ else lx).
    assert (H0 : inside input lx0).
    { subst lx0. destruct (peeked_ lx) eqn:Hp; [| exact Hin].
      split; simpl; [exact Hi |]. specialize (Hb Hp). lia. }
    pose proof (read_token_inside true lx0 H0) as H.
    destruct (read_token strtod strtol true lx0); simpl in *; exact H.
  - now apply get_wide_token_inside.
  - now apply get_wide_token_inside.
  - split; simpl; [exact Hi |]. rewrite Hi.
    apply scan_while_le. now apply scan_while_le.
  - unfold get_expected_token_raw.
    apply expect_inside; trivial. intros t l1 H1.
    apply expect_inside; trivial. intros t' l2 H2.
    destruct (negb _); [exact H2 | now apply get_token_inside].
  - unfold get_expected_token.
    apply expect_inside; trivial. intros t l1 H1.
    destruct (negb _); [exact H1 | now apply get_token_inside].
  - unfold get_expected_token_tt2.
    apply expect_inside; trivial. intros t l1 H1.
    destruct (_ && _); [exact H1 | now apply get_token_inside].
  - unfold get_expected_token_tt_raw.
    apply expect_inside; trivial. intros t l1 H1.
    apply expect_inside; trivial. intros t' l2 H2.
    destruct (_ && _); [exact H2 | now apply get_token_inside].
  - unfold get_expected_token_raw2.
    apply expect_inside; trivial. intros t l1 H1.
    apply expect_inside; trivial. intros t' l2 H2.
    destruct (_ && _); [exact H2 | now apply get_token_inside].
  - unfold get_token_if.
    apply expect_inside; trivial. intros t l1 H1.
    destruct (TokenType_eqb _ _); [now apply get_token_inside | exact H1].
Qed.

End Bounds.

(** X5: every token but the nil token takes at least one character.
    With a [strtod] that reads at least one character of a string that
    starts with a digit, or with a dot and a digit, a token that
    [read_token] returns and that is not the nil token is at least one
    character long, and the cursor has moved on by as much at least. *)
Theorem read_token_progress (allow_glob : bool) lx lx' :
  strtod_progress strtod ->
  read_token strtod strtol allow_glob lx = Ret tt lx' ->
  type (tok_ lx') <> kTokenNop ->
  1 <= length (tok_ lx') /\ cur_ lx + length (tok_ lx') <= cur_ lx'.
Proof.
  intros Hprog H Hnop.
  pose proof (read_token_ret double strtod strtol _ _ _ H)
    as (_ & _ & Hs & Hc).
  assert (Hge : cur_ lx <= str (tok_ lx'))
    by (rewrite Hs; apply scan_while_ge).
  split; [| lia]. clear Hs Hc Hge.
  revert H Hnop. unfold read_token, finish, raise.
  set (input := input_ lx).
  set (start := scan_while isspace input (cur_ lx)).
  case_ifs_eq; intros H Hnop; try discriminate H; injection H as <-;
    cbn [tok_ type length] in *; try congruence; try lia.
  - (* a quoted string *)
    unfold strchr in Echr.
    destruct (strchr_span "'" (skipn (start + 1) input)); [| discriminate].
    injection Echr as <-. lia.
  - (* a number that starts with a dot *)
    match goal with
    | Hdot : Ascii.eqb (char_at input start) "." = true,
      Hdig : isdigit (char_at input (start + 1)) = true |- _ =>
        apply Ascii.eqb_eq in Hdot;
        assert (Hb : 1 <= snd (strtod (skipn start input)))
          by (apply Hprog; right; rewrite !char_at_skipn, Nat.add_0_r; auto)
    end.
    rewrite Elibc in Hb. simpl in Hb. lia.
  - (* a $name *)
    match goal with
    | |- context [scan_while ?p input ?q] =>
        pose proof (scan_while_ge p input q)
    end. lia.
  - (* a %name *)
    match goal with
    | |- context [scan_while ?p input ?q] =>
        pose proof (scan_while_ge p input q)
    end. lia.
  - (* a number *)
    match goal with
    | Hdig : isdigit (char_at input start) = true |- _ =>
        assert (Hb : 1 <= snd (strtod (skipn start input)))
          by (apply Hprog; left; rewrite char_at_skipn, Nat.add_0_r; auto)
    end.
    rewrite Elibc in Hb. simpl in Hb. lia.
  - (* a CamelCase name *)
    match goal with
    | |- context [scan_while ?p input ?q] =>
        pose proof (scan_while_ge p input q)
    end. lia.
  - (* a lower-case name *)
    match goal with
    | Ha : isalpha (char_at input start) || _ = true |- _ =>
        rename Ha into Halpha
    end.
    assert (Hp0 : (fun a : ascii => isalnum a || Ascii.eqb a "_")
                    (char_at input start) = true).
    { cbv beta. unfold isalnum.
      apply orb_true_iff in Halpha as [Ha | Ha]; rewrite Ha; simpl;
        auto using orb_true_r. }
    pose proof (scan_while_pos _ input start eq_refl Hp0). lia.
Qed.

End WithLibc.

(** *** The labels of the kinds *)

(** X16: the labels that the error messages use tell the kinds apart:
    no two kinds of token have the same label, and no label is empty. *)
Theorem tokentype2str_injective (a b : TokenType) :
  (tokentype2str a = tokentype2str b -> a = b)
  /\ tokentype2str a <> EmptyString.
Proof.
  split.
  - destruct a; destruct b; intros H; try reflexivity; discriminate H.
  - destruct a; discriminate.
Qed.

(** *** The stand-in C library *)

Lemma exponent_span_le (s : list ascii) :
  exponent_span s <= List.length s.
Proof.
  destruct s as [| e s']; simpl; [lia |].
  destruct (Ascii.eqb e "e" || Ascii.eqb e "E"); [| lia].
  destruct s' as [| c s'']; simpl; [lia |].
  destruct (Ascii.eqb c "+" || Ascii.eqb c "-"); simpl.
  - pose proof (span_le isdigit s'').
    destruct (Nat.eqb (span isdigit s'') 0); lia.
  - pose proof (span_le isdigit (c :: s'')) as H. simpl in H.
    destruct (Nat.eqb _ 0); simpl; lia.
Qed.

Lemma decimal_span_le (s : list ascii) : decimal_span s <= List.length s.
Proof.
  unfold decimal_span.
  pose proof (span_le isdigit s) as Hi.
  set (i := span isdigit s) in *.
  assert (Hf : match skipn i s with
               | c :: r => if Ascii.eqb c "." then 1 + span isdigit r else 0
               | [] => 0
               end <= List.length (skipn i s)).
  { destruct (skipn i s) as [| c r]; simpl; [lia |].
    pose proof (span_le isdigit r). destruct (Ascii.eqb c "."); lia. }
  set (f := match skipn i s with _ :: _ => _ | [] => _ end) in *.
  pose proof (exponent_span_le (skipn (i + f) s)) as He.
  rewrite length_skipn in *. lia.
Qed.

Lemma decimal_in_bounds : libc_in_bounds decimal_strtod decimal_strtol.
Proof.
  split; intros s; simpl.
  - apply decimal_span_le.
  - apply span_le.
Qed.

Lemma decimal_progress : strtod_progress decimal_strtod.
Proof.
  intros s H. simpl. unfold decimal_span.
  destruct s as [| c s']; unfold char_at in H; simpl in H.
  - destruct H as [H | [H _]]; discriminate H.
  - destruct H as [H | [-> H]].
    + simpl. rewrite H. lia.
    + simpl. lia.
Qed.

Lemma cursor_in_bounds_witness :
  libc_in_bounds decimal_strtod decimal_strtol
  /\ reachable decimal_strtod decimal_strtol (list_ascii_of_string "@12 .5e3x")
       (lexer_on "@12 .5e3x")
  /\ cur_ (lexer_on "@12 .5e3x")
     <= List.length (list_ascii_of_string "@12 .5e3x")
  /\ cur_ (after decimal_strtod decimal_strtol (CallGetWordToken literal)
            (lexer_on "@12 .5e3x"))
     <= List.length (list_ascii_of_string "@12 .5e3x").
Proof.
  assert (Hreach :
    reachable decimal_strtod decimal_strtol (list_ascii_of_string "@12 .5e3x")
      (lexer_on "@12 .5e3x")) by apply reachable_new.
  assert (Hcur : cur_ (lexer_on "@12 .5e3x")
                 <= List.length (list_ascii_of_string "@12 .5e3x"))
    by (simpl; lia).
  split; [exact decimal_in_bounds |]. split; [exact Hreach |].
  split; [exact Hcur |].
  exact (cursor_in_bounds literal decimal_strtod decimal_strtol _
           decimal_in_bounds (CallGetWordToken literal) _ Hreach Hcur I).
Defined.

Lemma read_token_progress_witness :
  strtod_progress decimal_strtod
  /\ read_token decimal_strtod decimal_strtol false (lexer_on " .5e3x")
     = Ret tt (mkLexer (list_ascii_of_string " .5e3x") 5 false
                 (mkToken 1 kTokenNumber 4
                    (ValueD (list_ascii_of_string ".5e3"))))
  /\ kTokenNumber <> kTokenNop
  /\ 1 <= 4 /\ 0 + 4 <= 5.
Proof.
  assert (Hread :
    read_token decimal_strtod decimal_strtol false (lexer_on " .5e3x")
    = Ret tt (mkLexer (list_ascii_of_string " .5e3x") 5 false
                (mkToken 1 kTokenNumber 4
                   (ValueD (list_ascii_of_string ".5e3"))))) by reflexivity.
  assert (Hnop : kTokenNumber <> kTokenNop) by discriminate.
  split; [exact decimal_progress |]. split; [exact Hread |].
  split; [exact Hnop |].
  exact (read_token_progress literal decimal_strtod decimal_strtol false _ _
           decimal_progress Hread Hnop).
Defined.

Lemma go_back_get_token_witness :
  reachable decimal_strtod decimal_strtol (list_ascii_of_string "$a*2")
    (lexer_on "$a*2")
  /\ get_token decimal_strtod decimal_strtol (lexer_on "$a*2")
     = Ret (mkToken 0 kTokenVarname 2 ValueUnset)
         (mkLexer (list_ascii_of_string "$a*2") 2 false
            (mkToken 0 kTokenVarname 2 ValueUnset))
  /\ get_token decimal_strtod decimal_strtol
       (state_of (go_back (mkToken 0 kTokenVarname 2 ValueUnset)
                    (mkLexer (list_ascii_of_string "$a*2") 2 false
                       (mkToken 0 kTokenVarname 2 ValueUnset))))
     = Ret (mkToken 0 kTokenVarname 2 ValueUnset)
         (mkLexer (list_ascii_of_string "$a*2") 2 false
            (mkToken 0 kTokenVarname 2 ValueUnset)).
Proof.
  assert (Hreach :
    reachable decimal_strtod decimal_strtol (list_ascii_of_string "$a*2")
      (lexer_on "$a*2")) by apply reachable_new.
  assert (Hget :
    get_token decimal_strtod decimal_strtol (lexer_on "$a*2")
    = Ret (mkToken 0 kTokenVarname 2 ValueUnset)
        (mkLexer (list_ascii_of_string "$a*2") 2 false
           (mkToken 0 kTokenVarname 2 ValueUnset))) by reflexivity.
  split; [exact Hreach |]. split; [exact Hget |].
  exact (go_back_get_token literal decimal_strtod decimal_strtol
           _ _ _ _ Hreach Hget).
Defined.

Lemma get_token_at_end_witness :
  reachable decimal_strtod decimal_strtol (list_ascii_of_string " # note")
    (lexer_on " # note")
  /\ get_token decimal_strtod decimal_strtol (lexer_on " # note")
     = Ret (mkToken 1 kTokenNop 0 ValueUnset)
         (mkLexer (list_ascii_of_string " # note") 1 false
            (mkToken 1 kTokenNop 0 ValueUnset))
  /\ (0 = 0
      /\ 1 = 1
      /\ (char_at (list_ascii_of_string " # note") 1 = NUL
          \/ char_at (list_ascii_of_string " # note") 1 = "#"%char)
      /\ get_token decimal_strtod decimal_strtol
           (mkLexer (list_ascii_of_string " # note") 1 false
              (mkToken 1 kTokenNop 0 ValueUnset))
         = Ret (mkToken 1 kTokenNop 0 ValueUnset)
             (mkLexer (list_ascii_of_string " # note") 1 false
                (mkToken 1 kTokenNop 0 ValueUnset))).
Proof.
  assert (Hreach :
    reachable decimal_strtod decimal_strtol (list_ascii_of_string " # note")
      (lexer_on " # note")) by apply reachable_new.
  assert (Hget :
    get_token decimal_strtod decimal_strtol (lexer_on " # note")
    = Ret (mkToken 1 kTokenNop 0 ValueUnset)
        (mkLexer (list_ascii_of_string " # note") 1 false
           (mkToken 1 kTokenNop 0 ValueUnset))) by reflexivity.
  split; [exact Hreach |]. split; [exact Hget |].
  exact (get_token_at_end literal decimal_strtod decimal_strtol
           _ _ _ _ Hreach Hget eq_refl).
Defined.

Lemma get_glob_token_after_peek_witness :
  reachable decimal_strtod decimal_strtol (list_ascii_of_string "$p*2")
    (lexer_on "$p*2")
  /\ peek_token decimal_strtod decimal_strtol (lexer_on "$p*2")
     = Ret (mkToken 0 kTokenVarname 2 ValueUnset)
         (mkLexer (list_ascii_of_string "$p*2") 2 true
            (mkToken 0 kTokenVarname 2 ValueUnset))
  /\ get_glob_token decimal_strtod decimal_strtol
       (mkLexer (list_ascii_of_string "$p*2") 2 true
          (mkToken 0 kTokenVarname 2 ValueUnset))
     = Ret (mkToken 0 kTokenVarname 4 ValueUnset)
         (mkLexer (list_ascii_of_string "$p*2") 4 false
            (mkToken 0 kTokenVarname 4 ValueUnset))
  /\ exists (t' : Token literal) (lx2 : Lexer literal),
       get_glob_token decimal_strtod decimal_strtol
         (mkLexer (list_ascii_of_string "$p*2") 2 true
            (mkToken 0 kTokenVarname 2 ValueUnset))
       = Ret t' lx2
       /\ str t' = 0 /\ type t' = kTokenVarname /\ 2 <= length t'
       /\ cur_ lx2 = str t' + length t' /\ peeked_ lx2 = false
       /\ tok_ lx2 = t'
       /\ (kTokenVarname <> kTokenVarname ->
           kTokenVarname <> kTokenFuncname ->
           t' = mkToken 0 kTokenVarname 2 ValueUnset).
Proof.
  assert (Hreach :
    reachable decimal_strtod decimal_strtol (list_ascii_of_string "$p*2")
      (lexer_on "$p*2")) by apply reachable_new.
  assert (Hpeek :
    peek_token decimal_strtod decimal_strtol (lexer_on "$p*2")
    = Ret (mkToken 0 kTokenVarname 2 ValueUnset)
        (mkLexer (list_ascii_of_string "$p*2") 2 true
           (mkToken 0 kTokenVarname 2 ValueUnset))) by reflexivity.
  split; [exact Hreach |]. split; [exact Hpeek |].
  split; [reflexivity |].
  exact (get_glob_token_after_peek literal decimal_strtod decimal_strtol
           _ _ _ _ Hreach Hpeek).
Defined.

Lemma read_token_skips_space_witness :
  read_token decimal_strtod decimal_strtol false (lexer_on "  ab")
  = Ret tt (mkLexer (list_ascii_of_string "  ab") 4 false
              (mkToken 2 kTokenLname 2 ValueUnset))
  /\ 0 <= 2
  /\ (forall k, 0 <= k < 2 ->
        isspace (char_at (list_ascii_of_string "  ab") k) = true)
  /\ isspace (char_at (list_ascii_of_string "  ab") 2) = false.
Proof.
  assert (Hread :
    read_token decimal_strtod decimal_strtol false (lexer_on "  ab")
    = Ret tt (mkLexer (list_ascii_of_string "  ab") 4 false
                (mkToken 2 kTokenLname 2 ValueUnset))) by reflexivity.
  split; [exact Hread |].
  exact (read_token_skips_space literal decimal_strtod decimal_strtol
           false _ _ Hread).
Defined.

Lemma read_token_glob_only_names_witness :
  read_token decimal_strtod decimal_strtol false (lexer_on "%f*x")
  = Ret tt (mkLexer (list_ascii_of_string "%f*x") 2 false
              (mkToken 0 kTokenFuncname 2 ValueUnset))
  /\ exists lg : Lexer literal,
       read_token decimal_strtod decimal_strtol true (lexer_on "%f*x")
       = Ret tt lg
       /\ str (tok_ lg) = 0
       /\ type (tok_ lg) = kTokenFuncname
       /\ 2 <= length (tok_ lg)
       /\ (kTokenFuncname <> kTokenVarname ->
           kTokenFuncname <> kTokenFuncname ->
           lg = mkLexer (list_ascii_of_string "%f*x") 2 false
                  (mkToken 0 kTokenFuncname 2 ValueUnset)).
Proof.
  assert (Hread :
    read_token decimal_strtod decimal_strtol false (lexer_on "%f*x")
    = Ret tt (mkLexer (list_ascii_of_string "%f*x") 2 false
                (mkToken 0 kTokenFuncname 2 ValueUnset))) by reflexivity.
  split; [exact Hread |].
  exact (proj2 (read_token_glob_only_names literal decimal_strtod
                  decimal_strtol (lexer_on "%f*x")) _ Hread).
Defined.

Lemma get_token_if_spec_witness :
  peek_token decimal_strtod decimal_strtol (lexer_on "a, b")
  = Ret (mkToken 0 kTokenLname 1 ValueUnset)
      (mkLexer (list_ascii_of_string "a, b") 1 true
         (mkToken 0 kTokenLname 1 ValueUnset))
  /\ kTokenLname <> kTokenComma
  /\ get_token_if decimal_strtod decimal_strtol kTokenComma (lexer_on "a, b")
     = Ret (mkToken 1 kTokenNop 0 ValueUnset)
         (mkLexer (list_ascii_of_string "a, b") 1 true
            (mkToken 0 kTokenLname 1 ValueUnset))
  /\ get_token decimal_strtod decimal_strtol
       (mkLexer (list_ascii_of_string "a, b") 1 true
          (mkToken 0 kTokenLname 1 ValueUnset))
     = get_token decimal_strtod decimal_strtol (lexer_on "a, b")
  /\ get_token decimal_strtod decimal_strtol (lexer_on "a, b")
     = Ret (mkToken 0 kTokenLname 1 ValueUnset)
         (mkLexer (list_ascii_of_string "a, b") 1 false
            (mkToken 0 kTokenLname 1 ValueUnset)).
Proof.
  assert (Hpeek :
    peek_token decimal_strtod decimal_strtol (lexer_on "a, b")
    = Ret (mkToken 0 kTokenLname 1 ValueUnset)
        (mkLexer (list_ascii_of_string "a, b") 1 true
           (mkToken 0 kTokenLname 1 ValueUnset))) by reflexivity.
  assert (Hne : kTokenLname <> kTokenComma) by discriminate.
  split; [exact Hpeek |]. split; [exact Hne |].
  exact (proj2 (proj1 (get_token_if_spec literal decimal_strtod
                         decimal_strtol kTokenComma (lexer_on "a, b"))
                  _ _ Hpeek) Hne).
Defined.

Lemma expected_token_met_witness :
  peek_token decimal_strtod decimal_strtol (lexer_on "x = 1")
  = Ret (mkToken 0 kTokenLname 1 ValueUnset)
      (mkLexer (list_ascii_of_string "x = 1") 1 true
         (mkToken 0 kTokenLname 1 ValueUnset))
  /\ get_expected_token decimal_strtod decimal_strtol kTokenLname
       (lexer_on "x = 1")
     = get_token decimal_strtod decimal_strtol (lexer_on "x = 1")
  /\ get_expected_token_tt_raw decimal_strtod decimal_strtol kTokenNumber "x"
       (lexer_on "x = 1")
     = get_token decimal_strtod decimal_strtol (lexer_on "x = 1").
Proof.
  assert (Hpeek :
    peek_token decimal_strtod decimal_strtol (lexer_on "x = 1")
    = Ret (mkToken 0 kTokenLname 1 ValueUnset)
        (mkLexer (list_ascii_of_string "x = 1") 1 true
           (mkToken 0 kTokenLname 1 ValueUnset))) by reflexivity.
  split; [exact Hpeek |].
  destruct (expected_token_met literal decimal_strtod decimal_strtol
              _ _ _ Hpeek) as (_ & H1 & _ & _ & H4 & _).
  split.
  - exact (H1 kTokenLname eq_refl).
  - exact (H4 kTokenNumber "x" (or_intror eq_refl)).
Defined.

Lemma get_word_token_spec_witness :
  reachable decimal_strtod decimal_strtol (list_ascii_of_string "out.dat; x")
    (lexer_on "out.dat; x")
  /\ get_token decimal_strtod decimal_strtol (lexer_on "out.dat; x")
     = Ret (mkToken 0 kTokenLname 3 ValueUnset)
         (mkLexer (list_ascii_of_string "out.dat; x") 3 false
            (mkToken 0 kTokenLname 3 ValueUnset))
  /\ kTokenLname <> kTokenString
  /\ kTokenLname <> kTokenNop
  /\ get_word_token decimal_strtod decimal_strtol (lexer_on "out.dat; x")
     = Ret (mkToken 0 kTokenWord 7 ValueUnset)
         (mkLexer (list_ascii_of_string "out.dat; x") 7 false
            (mkToken 0 kTokenLname 3 ValueUnset))
  /\ exists n,
       get_word_token decimal_strtod decimal_strtol (lexer_on "out.dat; x")
       = Ret (mkToken 0 kTokenWord (3 + n) ValueUnset)
           (mkLexer (list_ascii_of_string "out.dat; x") (0 + 3 + n) false
              (mkToken 0 kTokenLname 3 ValueUnset))
       /\ (forall k, k < n ->
             let c := char_at (list_ascii_of_string "out.dat; x")
                        (0 + 3 + k) in
             c <> NUL /\ isspace c = false
             /\ c <> ";"%char /\ c <> "#"%char)
       /\ (let c := char_at (list_ascii_of_string "out.dat; x")
                      (0 + 3 + n) in
           c = NUL \/ isspace c = true \/ c = ";"%char \/ c = "#"%char).
Proof.
  assert (Hreach :
    reachable decimal_strtod decimal_strtol
      (list_ascii_of_string "out.dat; x") (lexer_on "out.dat; x"))
    by apply reachable_new.
  assert (Hget :
    get_token decimal_strtod decimal_strtol (lexer_on "out.dat; x")
    = Ret (mkToken 0 kTokenLname 3 ValueUnset)
        (mkLexer (list_ascii_of_string "out.dat; x") 3 false
           (mkToken 0 kTokenLname 3 ValueUnset))) by reflexivity.
  assert (Hs : kTokenLname <> kTokenString) by discriminate.
  assert (Hn : kTokenLname <> kTokenNop) by discriminate.
  split; [exact Hreach |]. split; [exact Hget |].
  split; [exact Hs |]. split; [exact Hn |]. split; [reflexivity |].
  exact (proj1 (proj2 (get_word_token_spec literal decimal_strtod
                         decimal_strtol _ _ _ _ Hreach Hget) Hs Hn)).
Defined.

Lemma get_rest_of_line_spec_witness :
  reachable decimal_strtod decimal_strtol (list_ascii_of_string "a  b c")
    (after decimal_strtod decimal_strtol (CallGetToken literal)
       (lexer_on "a  b c"))
  /\ get_rest_of_line
       (after decimal_strtod decimal_strtol (CallGetToken literal)
          (lexer_on "a  b c"))
     = Ret (mkToken 3 kTokenRest 3 ValueUnset)
         (mkLexer (list_ascii_of_string "a  b c") 6 false
            (mkToken 0 kTokenLname 1 ValueUnset))
  /\ exists (r : Token literal) (lx2 : Lexer literal),
       get_rest_of_line
         (after decimal_strtod decimal_strtol (CallGetToken literal)
            (lexer_on "a  b c"))
       = Ret r lx2
       /\ type r = kTokenRest
       /\ (false = true -> str r = 0)
       /\ (false = false ->
           1 <= str r
           /\ (forall k, 1 <= k < str r ->
                 isspace (char_at (list_ascii_of_string "a  b c") k) = true)
           /\ isspace (char_at (list_ascii_of_string "a  b c") (str r))
              = false)
       /\ cur_ lx2 = str r + length r
       /\ char_at (list_ascii_of_string "a  b c") (cur_ lx2) = NUL
       /\ (forall k, 1 <= k < cur_ lx2 ->
             char_at (list_ascii_of_string "a  b c") k <> NUL)
       /\ peeked_ lx2 = false
       /\ input_ lx2 = list_ascii_of_string "a  b c"
       /\ exists (t3 : Token literal) (lx3 : Lexer literal),
            get_token decimal_strtod decimal_strtol lx2 = Ret t3 lx3
            /\ type t3 = kTokenNop /\ cur_ lx3 = cur_ lx2.
Proof.
  assert (Hreach :
    reachable decimal_strtod decimal_strtol (list_ascii_of_string "a  b c")
      (after decimal_strtod decimal_strtol (CallGetToken literal)
         (lexer_on "a  b c")))
    by (apply reachable_call; apply reachable_new).
  split; [exact Hreach |]. split; [reflexivity |].
  exact (get_rest_of_line_spec literal decimal_strtod decimal_strtol
           _ _ Hreach).
Defined.


Lemma read_token_names_witness :
  read_token decimal_strtod decimal_strtol false (lexer_on "Gaussian(x)")
  = Ret tt (mkLexer (list_ascii_of_string "Gaussian(x)") 8 false
              (mkToken 0 kTokenCname 8 ValueUnset))
  /\ 2 <= 8
  /\ isupper (char_at (list_ascii_of_string "Gaussian(x)") (0 + 0)) = true
  /\ (forall k, 1 <= k < 8 ->
        isalnum (char_at (list_ascii_of_string "Gaussian(x)") (0 + k)) = true)
  /\ isalnum (char_at (list_ascii_of_string "Gaussian(x)") (0 + 8)) = false.
Proof.
  assert (Hread :
    read_token decimal_strtod decimal_strtol false (lexer_on "Gaussian(x)")
    = Ret tt (mkLexer (list_ascii_of_string "Gaussian(x)") 8 false
                (mkToken 0 kTokenCname 8 ValueUnset))) by reflexivity.
  split; [exact Hread |].
  exact (read_token_names literal decimal_strtod decimal_strtol
           false _ _ Hread).
Defined.

Lemma get_token_error_stays_witness :
  get_token decimal_strtod decimal_strtol (lexer_on "  'abc")
  = Throw "unfinished string"
      (mkLexer (list_ascii_of_string "  'abc") 0 false
         (mkToken 2 kTokenString 0 ValueUnset))
  /\ 0 = 0 /\ false = false
  /\ list_ascii_of_string "  'abc" = list_ascii_of_string "  'abc"
  /\ get_token decimal_strtod decimal_strtol
       (mkLexer (list_ascii_of_string "  'abc") 0 false
          (mkToken 2 kTokenString 0 ValueUnset))
     = Throw "unfinished string"
         (mkLexer (list_ascii_of_string "  'abc") 0 false
            (mkToken 2 kTokenString 0 ValueUnset))
  /\ peek_token decimal_strtod decimal_strtol
       (mkLexer (list_ascii_of_string "  'abc") 0 false
          (mkToken 2 kTokenString 0 ValueUnset))
     = Throw "unfinished string"
         (mkLexer (list_ascii_of_string "  'abc") 0 false
            (mkToken 2 kTokenString 0 ValueUnset)).
Proof.
  assert (Hget :
    get_token decimal_strtod decimal_strtol (lexer_on "  'abc")
    = Throw "unfinished string"
        (mkLexer (list_ascii_of_string "  'abc") 0 false
           (mkToken 2 kTokenString 0 ValueUnset))) by reflexivity.
  split; [exact Hget |].
  exact (get_token_error_stays literal decimal_strtod decimal_strtol
           _ _ _ Hget).
Defined.


Lemma get_token_consecutive_witness :
  reachable decimal_strtod decimal_strtol (list_ascii_of_string "ab  +")
    (lexer_on "ab  +")
  /\ get_token decimal_strtod decimal_strtol (lexer_on "ab  +")
     = Ret (mkToken 0 kTokenLname 2 ValueUnset)
         (mkLexer (list_ascii_of_string "ab  +") 2 false
            (mkToken 0 kTokenLname 2 ValueUnset))
  /\ get_token decimal_strtod decimal_strtol
       (mkLexer (list_ascii_of_string "ab  +") 2 false
          (mkToken 0 kTokenLname 2 ValueUnset))
     = Ret (mkToken 4 kTokenPlus 1 ValueUnset)
         (mkLexer (list_ascii_of_string "ab  +") 5 false
            (mkToken 4 kTokenPlus 1 ValueUnset))
  /\ 0 + 2 <= 4
  /\ (forall k, 0 + 2 <= k < 4 ->
        isspace (char_at (list_ascii_of_string "ab  +") k) = true)
  /\ isspace (char_at (list_ascii_of_string "ab  +") 4) = false
  /\ 5 = 4 + 1.
Proof.
  assert (Hreach :
    reachable decimal_strtod decimal_strtol (list_ascii_of_string "ab  +")
      (lexer_on "ab  +")) by apply reachable_new.
  assert (Hget1 :
    get_token decimal_strtod decimal_strtol (lexer_on "ab  +")
    = Ret (mkToken 0 kTokenLname 2 ValueUnset)
        (mkLexer (list_ascii_of_string "ab  +") 2 false
           (mkToken 0 kTokenLname 2 ValueUnset))) by reflexivity.
  assert (Hget2 :
    get_token decimal_strtod decimal_strtol
      (mkLexer (list_ascii_of_string "ab  +") 2 false
         (mkToken 0 kTokenLname 2 ValueUnset))
    = Ret (mkToken 4 kTokenPlus 1 ValueUnset)
        (mkLexer (list_ascii_of_string "ab  +") 5 false
           (mkToken 4 kTokenPlus 1 ValueUnset))) by reflexivity.
  split; [exact Hreach |]. split; [exact Hget1 |]. split; [exact Hget2 |].
  exact (get_token_consecutive literal decimal_strtod decimal_strtol
           _ _ _ _ _ _ Hreach Hget1 Hget2).
Defined.

End LexMore.
